(** * A shallow embedding of the lazy query engine of [query.go]

    Go closures that capture mutable variables are modelled as state
    machines: an [Iterator] packs the captured variables ([St], [st]) with
    the body of the closure ([next]).  A call of the closure is a call of
    [next] on the current state; it returns the pair [(elem, ok)] of the Go
    code together with the updated captured variables.

    Loops whose number of iterations is not bounded by a counter of the
    program ([for elem, ok := next(); ok; ...]) consume fuel; loops that
    count a program variable down ([for ; n > 0; n--]) recurse on that
    counter.  A computation is a function from fuel to a [result]:
    a value, a run-time panic (index out of range, failed type assertion) or
    [Timeout] when the fuel did not suffice.

    Callbacks (predicates, selectors, comparators) are total pure
    functions.  Elements, keys and rows all have Go's type [interface{}]:
    one type [T] with decidable equality (the equality of map keys) and a
    distinguished value [Nil].  Counters of type [int] are integers; the
    code decrements them only while they are positive, so no wrap-around
    arises.

    The state machines give every iterator its own state and so cannot
    tell whether two closures share a variable.  For what is stated of two
    iterators of one query the operators are embedded a second time, in
    module [Store], with the captured variables and the source slices as
    cells of one store, written by location. *)

From stdpp Require Import base option list gmap sorting.
From Stdlib Require Import ZArith Lia.

(** ** Results of computations *)

Inductive result (A : Type) : Type :=
| Ret (a : A)
| Panic
| Timeout.
Arguments Ret {A} a.
Arguments Panic {A}.
Arguments Timeout {A}.

Global Instance result_ret : MRet result := @Ret.
Global Instance result_bind : MBind result := λ A B f c,
  match c with
  | Ret a => f a
  | Panic => Panic
  | Timeout => Timeout
  end.

(** [Returns c a]: with enough fuel the computation [c] returns [a]. *)
Definition Returns {A} (c : nat → result A) (a : A) : Prop :=
  ∃ k0, ∀ k, k0 ≤ k → c k = Ret a.

(** [Panics c]: with enough fuel the computation [c] panics. *)
Definition Panics {A} (c : nat → result A) : Prop :=
  ∃ k0, ∀ k, k0 ≤ k → c k = Panic.

Section query.
Context {T : Type} `{Countable T}.

(** Go's [nil] interface value: the zero value of [T], returned as the
    element of an exhausted iterator. *)
Variable Nil : T.

(** [a[i]] on a slice: panics out of range. *)
Definition index {A} (a : list A) (i : nat) : result A :=
  match a !! i with
  | Some e => Ret e
  | None => Panic
  end.

(** ** Iterators and queries *)

(** [type Iterator func() (elem T, ok bool)] *)
Record Iterator : Type := mkIterator {
  St : Type;
  st : St;
  next : nat → St → result (T * bool * St)
}.

(** [type Query struct { Iterate func() Iterator }] *)
Record Query : Type := mkQuery {
  Iterate : nat → result Iterator
}.

(** *** From *)

Definition from_next (a : list T) (_ : nat) (i : nat) : result (T * bool * nat) :=
  if bool_decide (i < length a) then
    elem ← index a i;
    Ret (elem, true, S i)
  else Ret (Nil, false, i).

Definition from (a : list T) : Iterator :=
  {| St := nat; st := 0; next := from_next a |}.

Definition From (a : list T) : Query :=
  {| Iterate := λ _, Ret (from a) |}.

(** *** Where *)

(** [has := true; for k := 0; k < len(f); k++ { has = has && f[k](elem) }] *)
Definition all_hold (f : list (T → bool)) (elem : T) : bool :=
  fold_left (λ has fk, has && fk elem) f true.

Fixpoint where_next {U : Type} (nxt : nat → U → result (T * bool * U))
    (f : list (T → bool)) (fuel : nat) (s : U) : result (T * bool * U) :=
  match fuel with
  | 0 => Timeout
  | S k =>
      '(elem, ok, s') ← nxt k s;
      if ok : bool then
        if all_hold f elem then Ret (elem, true, s')
        else where_next nxt f k s'
      else Ret (elem, false, s')
  end.

(** [func where(q *Query, f []func(e T) bool) Iterator] *)
Definition where_ (q : Query) (f : list (T → bool)) (fuel : nat) : result Iterator :=
  up ← Iterate q fuel;
  Ret {| St := St up; st := st up; next := where_next (next up) f |}.

Definition Where (q : Query) (f : list (T → bool)) : Query :=
  {| Iterate := where_ q f |}.

(** *** ToSlice *)

Fixpoint ToSlice_loop {U : Type} (nxt : nat → U → result (T * bool * U))
    (fuel : nat) (s : U) (a : list T) : result (list T) :=
  match fuel with
  | 0 => Timeout
  | S k =>
      '(elem, ok, s') ← nxt k s;
      if ok : bool then ToSlice_loop nxt k s' (a ++ [elem])
      else Ret a
  end.

Definition ToSlice (q : Query) (fuel : nat) : result (list T) :=
  it ← Iterate q fuel;
  ToSlice_loop (next it) fuel (st it) [].

(** *** MapTo *)

(** The type assertion [elem.(T)] fails on a nil interface value. *)
Definition mapTo_next {U : Type} (nxt : nat → U → result (T * bool * U))
    (f : T → T) (fuel : nat) (s : U) : result (T * bool * U) :=
  '(elem, ok, s') ← nxt fuel s;
  if ok : bool then
    if decide (elem = Nil) then Panic else Ret (f elem, true, s')
  else Ret (elem, false, s').

Definition mapTo (q : Query) (f : T → T) (fuel : nat) : result Iterator :=
  up ← Iterate q fuel;
  Ret {| St := St up; st := st up; next := mapTo_next (next up) f |}.

Definition MapTo (q : Query) (f : T → T) : Query :=
  {| Iterate := mapTo q f |}.

(** *** Expand *)

Record expState : Type := mkExpState {
  e_outer : T;
  e_inner : list T;
  e_i : nat;
  e_len : nat
}.

Fixpoint expand_next {U : Type} (nxt : nat → U → result (T * bool * U))
    (f : T → list T) (fuel : nat) (us : U * expState)
    : result (T * bool * (U * expState)) :=
  match fuel with
  | 0 => Timeout
  | S k =>
      let emit (u : U) (s : expState) :=
        if bool_decide (e_i s < e_len s) then
          elem ← index (e_inner s) (e_i s);
          Ret (elem, true,
               (u, {| e_outer := e_outer s; e_inner := e_inner s;
                      e_i := S (e_i s); e_len := e_len s |}))
        else expand_next nxt f k (u, s) in
      let '(u, s) := us in
      if bool_decide (e_len s ≤ e_i s) then
        '(outer, ok, u') ← nxt k u;
        if ok : bool then
          emit u' {| e_outer := outer; e_inner := f outer;
                     e_i := 0; e_len := length (f outer) |}
        else
          Ret (Nil, false,
               (u', {| e_outer := outer; e_inner := e_inner s;
                       e_i := e_i s; e_len := e_len s |}))
      else emit u s
  end.

Definition expand (q : Query) (f : T → list T) (fuel : nat) : result Iterator :=
  up ← Iterate q fuel;
  Ret {| St := St up * expState;
         st := (st up, {| e_outer := Nil; e_inner := []; e_i := 0; e_len := 0 |});
         next := expand_next (next up) f |}.

Definition Expand (q : Query) (f : T → list T) : Query :=
  {| Iterate := expand q f |}.

(** *** First, At, Last, Reduce *)

Definition First (q : Query) (fuel : nat) : result T :=
  it ← Iterate q fuel;
  '(first, _, _) ← next it fuel (st it);
  Ret first.

(** [for ; i >= 0; i-- { elem, _ = next() }], by recursion on the number
    [c] of iterations left. *)
Fixpoint At_loop {U : Type} (nxt : nat → U → result (T * bool * U))
    (fuel : nat) (c : nat) (elem : T) (s : U) : result T :=
  match c with
  | 0 => Ret elem
  | S c' =>
      '(e, _, s') ← nxt fuel s;
      At_loop nxt fuel c' e s'
  end.

Definition At (q : Query) (i : Z) (fuel : nat) : result T :=
  if bool_decide (i < 0)%Z then Ret Nil
  else
    it ← Iterate q fuel;
    At_loop (next it) fuel (Z.to_nat (i + 1)) Nil (st it).

Fixpoint Last_loop {U : Type} (nxt : nat → U → result (T * bool * U))
    (fuel : nat) (s : U) (last : T) : result T :=
  match fuel with
  | 0 => Timeout
  | S k =>
      '(elem, ok, s') ← nxt k s;
      if ok : bool then Last_loop nxt k s' elem else Ret last
  end.

Definition Last (q : Query) (fuel : nat) : result T :=
  it ← Iterate q fuel;
  Last_loop (next it) fuel (st it) Nil.

Fixpoint Reduce_loop {U : Type} (nxt : nat → U → result (T * bool * U))
    (f : T → T → T) (fuel : nat) (s : U) (v : T) : result T :=
  match fuel with
  | 0 => Timeout
  | S k =>
      '(elem, ok, s') ← nxt k s;
      if ok : bool then Reduce_loop nxt f k s' (f v elem) else Ret v
  end.

Definition Reduce (q : Query) (f : T → T → T) (fuel : nat) : result T :=
  it ← Iterate q fuel;
  '(v, ok, s') ← next it fuel (st it);
  if ok : bool then Reduce_loop (next it) f fuel s' v else Ret Nil.

(** *** Any, Every, Contains, IsEmpty, Fold, ForEach *)

Fixpoint Any_loop {U : Type} (nxt : nat → U → result (T * bool * U))
    (f : list (T → bool)) (fuel : nat) (s : U) : result bool :=
  match fuel with
  | 0 => Timeout
  | S k =>
      '(elem, ok, s') ← nxt k s;
      if ok : bool then
        if fold_left (λ has fk, has && fk elem) f true then Ret true
        else Any_loop nxt f k s'
      else Ret false
  end.

Definition Any (q : Query) (f : list (T → bool)) (fuel : nat) : result bool :=
  it ← Iterate q fuel;
  Any_loop (next it) f fuel (st it).

(** [has] is declared before the loop over the elements and is never
    reset. *)
Fixpoint Every_loop {U : Type} (nxt : nat → U → result (T * bool * U))
    (f : list (T → bool)) (fuel : nat) (s : U) (has : bool) : result bool :=
  match fuel with
  | 0 => Timeout
  | S k =>
      '(elem, ok, s') ← nxt k s;
      if ok : bool then
        Every_loop nxt f k s' (fold_left (λ has fk, has && fk elem) f has)
      else Ret has
  end.

Definition Every (q : Query) (f : list (T → bool)) (fuel : nat) : result bool :=
  it ← Iterate q fuel;
  Every_loop (next it) f fuel (st it) true.

(** [elem == e] is the equality of [T]. *)
Fixpoint Contains_loop {U : Type} (nxt : nat → U → result (T * bool * U))
    (e : T) (fuel : nat) (s : U) : result bool :=
  match fuel with
  | 0 => Timeout
  | S k =>
      '(elem, ok, s') ← nxt k s;
      if ok : bool then
        if bool_decide (elem = e) then Ret true
        else Contains_loop nxt e k s'
      else Ret false
  end.

Definition Contains (q : Query) (e : T) (fuel : nat) : result bool :=
  it ← Iterate q fuel;
  Contains_loop (next it) e fuel (st it).

Definition IsEmpty (q : Query) (fuel : nat) : result bool :=
  it ← Iterate q fuel;
  '(_, ok, _) ← next it fuel (st it);
  Ret (negb ok).

Fixpoint Fold_loop {U : Type} (nxt : nat → U → result (T * bool * U))
    (f : T → T → T) (fuel : nat) (s : U) (v : T) : result T :=
  match fuel with
  | 0 => Timeout
  | S k =>
      '(elem, ok, s') ← nxt k s;
      if ok : bool then Fold_loop nxt f k s' (f v elem) else Ret v
  end.

Definition Fold (q : Query) (v : T) (f : T → T → T) (fuel : nat) : result T :=
  it ← Iterate q fuel;
  Fold_loop (next it) f fuel (st it) v.

(** The callback of [ForEach] is called for its effect: it is a
    transformer of the state [W] it acts on, and [ForEach] returns the
    state after the last call. *)
Fixpoint ForEach_loop {U W : Type} (nxt : nat → U → result (T * bool * U))
    (f : T → W → W) (fuel : nat) (s : U) (w : W) : result W :=
  match fuel with
  | 0 => Timeout
  | S k =>
      '(elem, ok, s') ← nxt k s;
      if ok : bool then ForEach_loop nxt f k s' (f elem w) else Ret w
  end.

Definition ForEach {W : Type} (q : Query) (f : T → W → W) (w : W) (fuel : nat)
    : result W :=
  it ← Iterate q fuel;
  ForEach_loop (next it) f fuel (st it) w.

(** *** Join *)

(** [type lut map[T][]T] *)
Abbreviation lut := (gmap T (list T)).

Fixpoint makeLut_loop {U : Type} (nxt : nat → U → result (T * bool * U))
    (f : T → T) (fuel : nat) (s : U) (res : lut) : result lut :=
  match fuel with
  | 0 => Timeout
  | S k =>
      '(elem, ok, s') ← nxt k s;
      if ok : bool then
        let key := f elem in
        makeLut_loop nxt f k s'
          (<[key := default [] (res !! key) ++ [elem]]> res)
      else Ret res
  end.

Definition makeLut (it : Iterator) (f : T → T) (fuel : nat) : result lut :=
  makeLut_loop (next it) f fuel (st it) ∅.

Record joinState : Type := mkJoinState {
  j_outer : T;
  j_inner : list T;
  j_i : nat;
  j_len : nat
}.

(** The loop [for !has { ... }]; the boolean of the result is [ok]. *)
Fixpoint join_seek {U : Type} (nxt : nat → U → result (T * bool * U))
    (l : lut) (outKeySel : T → T) (fuel : nat) (u : U) (s : joinState)
    : result (bool * U * joinState) :=
  match fuel with
  | 0 => Timeout
  | S k =>
      '(outer, ok, u') ← nxt k u;
      if ok : bool then
        let '(inner, has) :=
          match l !! outKeySel outer with
          | Some g => (g, true)
          | None => ([], false)
          end in
        let s' := {| j_outer := outer; j_inner := inner;
                     j_i := 0; j_len := length inner |} in
        if has : bool then Ret (true, u', s') else join_seek nxt l outKeySel k u' s'
      else
        Ret (false, u',
             {| j_outer := outer; j_inner := j_inner s;
                j_i := j_i s; j_len := j_len s |})
  end.

Definition join_next {U : Type} (nxt : nat → U → result (T * bool * U))
    (l : lut) (outKeySel : T → T) (resultSel : T → T → T)
    (fuel : nat) (us : U * joinState) : result (T * bool * (U * joinState)) :=
  let '(u, s) := us in
  '(ok, u1, s1) ←
    (if bool_decide (j_len s ≤ j_i s) then join_seek nxt l outKeySel fuel u s
     else Ret (true, u, s));
  if ok : bool then
    inn ← index (j_inner s1) (j_i s1);
    Ret (resultSel (j_outer s1) inn, true,
         (u1, {| j_outer := j_outer s1; j_inner := j_inner s1;
                 j_i := S (j_i s1); j_len := j_len s1 |}))
  else Ret (Nil, false, (u1, s1)).

(** The table is built from a fresh iterator of [inner] when the iterator
    of the join is created. *)
Definition join (q inner : Query) (outKeySel innKeySel : T → T)
    (resultSel : T → T → T) (fuel : nat) : result Iterator :=
  up ← Iterate q fuel;
  inn ← Iterate inner fuel;
  l ← makeLut inn innKeySel fuel;
  Ret {| St := St up * joinState;
         st := (st up, {| j_outer := Nil; j_inner := []; j_i := 0; j_len := 0 |});
         next := join_next (next up) l outKeySel resultSel |}.

Definition Join (q inner : Query) (outKeySel innKeySel : T → T)
    (resultSel : T → T → T) : Query :=
  {| Iterate := join q inner outKeySel innKeySel resultSel |}.

(** *** Skip and Take *)

(** [for ; n > 0; n-- { _, ok = next(); if !ok { return } }], by recursion
    on the value [c] of [n]; the boolean of the result tells whether the
    loop ran to its end, the number is the final value of [n]. *)
Fixpoint skip_loop {U : Type} (nxt : nat → U → result (T * bool * U))
    (fuel : nat) (c : nat) (u : U) : result (bool * U * nat) :=
  match c with
  | 0 => Ret (true, u, 0)
  | S c' =>
      '(_, ok, u') ← nxt fuel u;
      if ok : bool then skip_loop nxt fuel c' u' else Ret (false, u', c)
  end.

Definition skip_next {U : Type} (nxt : nat → U → result (T * bool * U))
    (fuel : nat) (un : U * Z) : result (T * bool * (U * Z)) :=
  let '(u, n) := un in
  if bool_decide (n < 0)%Z then Ret (Nil, false, (u, n))
  else
    '(ran, u', c) ← skip_loop nxt fuel (Z.to_nat n) u;
    if ran : bool then
      '(elem, ok, u'') ← nxt fuel u';
      Ret (elem, ok, (u'', Z.of_nat c))
    else Ret (Nil, false, (u', Z.of_nat c)).

Definition skip (q : Query) (n : Z) (fuel : nat) : result Iterator :=
  up ← Iterate q fuel;
  Ret {| St := St up * Z; st := (st up, n); next := skip_next (next up) |}.

Definition Skip (q : Query) (n : Z) : Query :=
  {| Iterate := skip q n |}.

Definition take_next {U : Type} (nxt : nat → U → result (T * bool * U))
    (fuel : nat) (un : U * Z) : result (T * bool * (U * Z)) :=
  let '(u, n) := un in
  if bool_decide (n ≤ 0)%Z then Ret (Nil, false, (u, n))
  else
    '(elem, ok, u') ← nxt fuel u;
    Ret (elem, ok, (u', (n - 1)%Z)).

(** [func take(q *Query, n int) Iterator] *)
Definition take_ (q : Query) (n : Z) (fuel : nat) : result Iterator :=
  up ← Iterate q fuel;
  Ret {| St := St up * Z; st := (st up, n); next := take_next (next up) |}.

Definition Take (q : Query) (n : Z) : Query :=
  {| Iterate := take_ q n |}.

(** *** Sort *)

(** [type sorter struct { t []interface{}; less by }] *)
Record sorter : Type := mkSorter {
  t : list T;
  less : list (T → T → bool)
}.

Definition Len (s : sorter) : nat := length (t s).

Definition Swap (s : sorter) (i j : nat) : result sorter :=
  x ← index (t s) i;
  y ← index (t s) j;
  Ret {| t := <[j := x]> (<[i := y]> (t s)); less := less s |}.

(** The loop of [Less] runs [len(s.less)-1] times, and not at all when
    that bound is negative ([c] counts the iterations left, [k] is the
    loop variable); the comparator indexed after the loop is [s.less[k]]. *)
Fixpoint Less_loop (s : sorter) (i j : nat) (c k : nat) : result bool :=
  match c with
  | 0 =>
      lessk ← index (less s) k;
      x ← index (t s) i;
      y ← index (t s) j;
      Ret (lessk x y)
  | S c' =>
      lessk ← index (less s) k;
      x ← index (t s) i;
      y ← index (t s) j;
      if (lessk : T → T → bool) x y then Ret true
      else if lessk y x then Ret false
      else Less_loop s i j c' (S k)
  end.

Definition Less (s : sorter) (i j : nat) : result bool :=
  Less_loop s i j (Z.to_nat (Z.of_nat (length (less s)) - 1)) 0.

(** [sort.Stable] belongs to Go's standard library.  The library sorts
    every block of 20 elements of the slice by insertion,

      for i := a + 1; i < b; i++ {
        for j := i; j > a && data.Less(j, j-1); j-- { data.Swap(j, j-1) }
      }

    and merges the sorted blocks in place ([symMerge]).  [Stable] below is
    that insertion sort, written against the three methods of
    [sort.Interface] and run on the whole slice.  It returns the slice that
    the library returns
    - when the slice has at most 20 elements, where the library runs this
      very loop and nothing else, whatever [Less] is;
    - when no element is less than an earlier one, where neither makes a
      swap;
    - when [Less] is a strict weak order, where the result of a stable
      sort is unique.
    For more than 20 elements and a [Less] that is not a strict weak order
    the two may differ; nothing below is stated there. *)
Fixpoint insertionSort_inner (s : sorter) (a j : nat) : result sorter :=
  match j with
  | 0 => Ret s
  | S j' =>
      if bool_decide (a < j) then
        b ← Less s j j';
        if b : bool then
          s' ← Swap s j j';
          insertionSort_inner s' a j'
        else Ret s
      else Ret s
  end.

Fixpoint insertionSort_outer (s : sorter) (a i c : nat) : result sorter :=
  match c with
  | 0 => Ret s
  | S c' =>
      s' ← insertionSort_inner s a i;
      insertionSort_outer s' a (S i) c'
  end.

Definition insertionSort (s : sorter) (a b : nat) : result sorter :=
  insertionSort_outer s a (S a) (b - S a).

Definition Stable (s : sorter) : result sorter :=
  insertionSort s 0 (Len s).

(** [func (f by) Sort(t []interface{})]: sorts [t] in place; the result is
    the slice after the call. *)
Definition by_Sort (f : list (T → T → bool)) (a : list T) : result (list T) :=
  s ← Stable {| t := a; less := f |};
  Ret (t s).

(** The slice is materialised and sorted when the iterator is created;
    the closure returned reads it as the closure of [from] reads its
    slice. *)
Definition sortBy (q : Query) (f : list (T → T → bool)) (fuel : nat)
    : result Iterator :=
  a ← ToSlice q fuel;
  a' ← by_Sort f a;
  Ret {| St := nat; st := 0; next := from_next a' |}.

Definition Sort (q : Query) (f : list (T → T → bool)) : Query :=
  {| Iterate := sortBy q f |}.

End query.

(** ** The stream of an iterator *)

Section stream.
Context {T : Type} (Nil : T).
Context {U : Type} (nxt : nat → U → result (T * bool * U)).

(** The next [n] calls of the closure all return [(nil, false)]. *)
Fixpoint ExhaustedN (n : nat) (s : U) : Prop :=
  match n with
  | 0 => True
  | S n' => ∃ s', Returns (λ k, nxt k s) (Nil, false, s') ∧ ExhaustedN n' s'
  end.

(** Every further call of the closure returns [(nil, false)]. *)
Definition Exhausted (s : U) : Prop := ∀ n, ExhaustedN n s.

(** From state [s] the closure returns the elements of [l], in order and
    with [ok = true], and is exhausted afterwards. *)
Fixpoint Yields (s : U) (l : list T) : Prop :=
  match l with
  | [] => Exhausted s
  | e :: l' => ∃ s', Returns (λ k, nxt k s) (e, true, s') ∧ Yields s' l'
  end.

End stream.

(** A query denotes the finite sequence [l]: its factory returns an
    iterator with stream [l]. *)
Definition Denotes {T : Type} (Nil : T) (q : Query) (l : list T) : Prop :=
  ∃ it, Returns (Iterate q) it ∧ Yields Nil (next it) (st it) l.

(** ** Comparator chains *)

Section chains.
Context {T : Type}.

(** A comparator is a strict weak order: asymmetric, and its negation is
    transitive. *)
Definition StrictWeak (c : T → T → bool) : Prop :=
  (∀ x y, c x y = true → c y x = false) ∧
  (∀ x y z, c x y = false → c y z = false → c x z = false).

(** [x] and [y] are equal under comparator [c]: neither is less. *)
Definition tied (x y : T) (c : T → T → bool) : bool :=
  negb (c x y) && negb (c y x).

Definition tied_all (f : list (T → T → bool)) (x y : T) : bool :=
  forallb (tied x y) f.

(** The comparators of the chain except the last one. *)
Definition tied_front (f : list (T → T → bool)) (x y : T) : bool :=
  tied_all (removelast f) x y.

(** The lexicographic order of a chain: the first comparator that orders
    [x] and [y] one way or the other decides. *)
Fixpoint chain_less (f : list (T → T → bool)) (x y : T) : bool :=
  match f with
  | [] => false
  | c :: f' => if c x y then true else if c y x then false else chain_less f' x y
  end.

(** Insertion of [x] into the already sorted part of the slice, given
    from right to left: [x] moves left past every element it is less than. *)
Fixpoint insert_left (lt : T → T → bool) (x : T) (rp : list T) : list T :=
  match rp with
  | [] => [x]
  | y :: rp' => if lt x y then y :: insert_left lt x rp' else x :: rp
  end.

Definition isort (lt : T → T → bool) (l : list T) : list T :=
  reverse (foldl (λ rp x, insert_left lt x rp) [] l).

End chains.

(** ** The lookup table and the rows of a join *)

Section tables.
Context {T : Type} `{Countable T}.

(** One iteration of the loop of [makeLut] with key selector [f]. *)
Definition lut_add (f : T → T) (m : gmap T (list T)) (elem : T)
    : gmap T (list T) :=
  <[f elem := default [] (m !! f elem) ++ [elem]]> m.

(** The inner elements whose key under [f] is [key], in their order. *)
Definition group (f : T → T) (li : list T) (key : T) : list T :=
  filter (λ e, f e = key) li.

(** The rows that table [m] gives for the outer element [o]. *)
Definition rows (m : gmap T (list T)) (outKeySel : T → T)
    (resultSel : T → T → T) (o : T) : list T :=
  map (resultSel o) (default [] (m !! outKeySel o)).

(** The rows of a join of the outer elements [lo] with the inner
    elements [li]: outer order, and for each outer element the inner
    elements with the same key, in their order. *)
Definition joined (outKeySel innKeySel : T → T) (resultSel : T → T → T)
    (lo li : list T) : list T :=
  concat (map (λ o, map (resultSel o) (group innKeySel li (outKeySel o))) lo).

End tables.

(** ** Concrete elements, for examples *)

Inductive value : Type :=
| VNil
| VInt (n : Z).

Global Instance value_eq_dec : EqDecision value.
Proof. solve_decision. Defined.

Global Instance value_countable : Countable value.
Proof.
  refine (inj_countable'
            (λ v, match v with VNil => None | VInt n => Some n end)
            (λ o, match o with None => VNil | Some n => VInt n end) _).
  by intros [].
Defined.

(** [a < b] on integers; [nil] is below every integer. *)
Definition value_lt (a b : value) : bool :=
  match a, b with
  | VInt x, VInt y => bool_decide (x < y)%Z
  | VNil, VInt _ => true
  | _, VNil => false
  end.

(** Comparison of the last decimal digit, and of the remaining digits. *)
Definition units_lt (a b : value) : bool :=
  match a, b with
  | VInt x, VInt y => bool_decide (x `mod` 10 < y `mod` 10)%Z
  | VNil, VInt _ => true
  | _, VNil => false
  end.

(** [a + 1 < b] on integers: a comparator that is no strict weak order
    (1 and 2 tie, 2 and 3 tie, but 1 is less than 3). *)
Definition gap_lt (a b : value) : bool :=
  match a, b with
  | VInt x, VInt y => bool_decide (x + 1 < y)%Z
  | VNil, VInt _ => true
  | _, VNil => false
  end.

(** Callbacks on integers, for examples; they leave nil alone. *)
Definition value_add10 (e : value) : value :=
  match e with
  | VInt n => VInt (n + 10)
  | VNil => VNil
  end.

Definition value_sum (v e : value) : value :=
  match v, e with
  | VInt a, VInt b => VInt (a + b)
  | VNil, x | x, VNil => x
  end.

Definition units_key (e : value) : value :=
  match e with
  | VInt n => VInt (n `mod` 10)
  | VNil => VNil
  end.

Definition tens_lt (a b : value) : bool :=
  match a, b with
  | VInt x, VInt y => bool_decide (x `div` 10 < y `div` 10)%Z
  | VNil, VInt _ => true
  | _, VNil => false
  end.



(** ** The operators over a store

    To tell what two iterators of one query share, the variables that the
    closures capture and update ([i] of [from], [n] of [skip] and [take],
    [s] of [expand] and [join], the slice and [i] of [sortBy]) and the
    slices given to [From] are cells of a store.  A closure is a function
    on the store that reads and writes the cells of its variables by
    their locations; creating an iterator allocates its variables at the
    end of the store.  Nothing in this model sets the cells of two
    iterators apart: that they are is a property of the code. *)

Module Store.
Section store.
Context {T : Type} `{Countable T}.
Variable Nil : T.

Inductive cell : Type :=
| CInt (n : Z)
| CSlice (a : list T)
| CExp (s : @expState T)
| CJoin (s : @joinState T).

(** The store: the cells allocated so far, a location is a position. *)
Local Abbreviation store := (list cell).

Definition load_int (σ : store) (l : nat) : result Z :=
  match σ !! l with
  | Some (CInt n) => Ret n
  | _ => Panic
  end.

Definition load_slice (σ : store) (l : nat) : result (list T) :=
  match σ !! l with
  | Some (CSlice a) => Ret a
  | _ => Panic
  end.

Definition load_exp (σ : store) (l : nat) : result (@expState T) :=
  match σ !! l with
  | Some (CExp s) => Ret s
  | _ => Panic
  end.

Definition load_join (σ : store) (l : nat) : result (@joinState T) :=
  match σ !! l with
  | Some (CJoin s) => Ret s
  | _ => Panic
  end.

(** [a[i]] for an [int] index. *)
Definition index_int (a : list T) (i : Z) : result T :=
  if bool_decide (i < 0)%Z then Panic else index a (Z.to_nat i).

(** [type Iterator func() (elem T, ok bool)] *)
Definition Iterator : Type := nat → store → result (T * bool * store).

(** [type Query struct { Iterate func() Iterator }] *)
Record Query : Type := mkQuery {
  Iterate : nat → store → result (Iterator * store)
}.

(** *** From: [a] is the location of the slice, [i] of the variable [i] *)

Definition from_next (a i : nat) (_ : nat) (σ : store)
    : result (T * bool * store) :=
  s ← load_slice σ a;
  n ← load_int σ i;
  if bool_decide (n < Z.of_nat (length s))%Z then
    elem ← index_int s n;
    Ret (elem, true, <[i := CInt (n + 1)]> σ)
  else Ret (Nil, false, σ).

Definition from (a : nat) (σ : store) : Iterator * store :=
  (from_next a (length σ), σ ++ [CInt 0]).

Definition From (a : nat) : Query :=
  {| Iterate := λ _ σ, Ret (from a σ) |}.

(** *** Where and MapTo *)

Fixpoint where_next (next : Iterator) (f : list (T → bool)) (fuel : nat)
    (σ : store) : result (T * bool * store) :=
  match fuel with
  | 0 => Timeout
  | S k =>
      '(elem, ok, σ') ← next k σ;
      if ok : bool then
        if all_hold f elem then Ret (elem, true, σ')
        else where_next next f k σ'
      else Ret (elem, false, σ')
  end.

Definition where_ (q : Query) (f : list (T → bool)) (fuel : nat) (σ : store)
    : result (Iterator * store) :=
  '(next, σ') ← Iterate q fuel σ;
  Ret (where_next next f, σ').

Definition Where (q : Query) (f : list (T → bool)) : Query :=
  {| Iterate := where_ q f |}.

Definition mapTo_next (next : Iterator) (f : T → T) (fuel : nat) (σ : store)
    : result (T * bool * store) :=
  '(elem, ok, σ') ← next fuel σ;
  if ok : bool then
    if decide (elem = Nil) then Panic else Ret (f elem, true, σ')
  else Ret (elem, false, σ').

Definition mapTo (q : Query) (f : T → T) (fuel : nat) (σ : store)
    : result (Iterator * store) :=
  '(next, σ') ← Iterate q fuel σ;
  Ret (mapTo_next next f, σ').

Definition MapTo (q : Query) (f : T → T) : Query :=
  {| Iterate := mapTo q f |}.

(** *** Expand: [s] is the location of the variable [s] *)

Fixpoint expand_next (next : Iterator) (f : T → list T) (s : nat)
    (fuel : nat) (σ : store) : result (T * bool * store) :=
  match fuel with
  | 0 => Timeout
  | S k =>
      let emit (σ : store) (v : expState) :=
        if bool_decide (e_i v < e_len v) then
          elem ← index (e_inner v) (e_i v);
          Ret (elem, true,
               <[s := CExp {| e_outer := e_outer v; e_inner := e_inner v;
                              e_i := S (e_i v); e_len := e_len v |}]> σ)
        else expand_next next f s k σ in
      v ← load_exp σ s;
      if bool_decide (e_len v ≤ e_i v) then
        '(outer, ok, σ') ← next k σ;
        if ok : bool then
          let v' := {| e_outer := outer; e_inner := f outer;
                       e_i := 0; e_len := length (f outer) |} in
          emit (<[s := CExp v']> σ') v'
        else
          v1 ← load_exp σ' s;
          Ret (Nil, false,
               <[s := CExp {| e_outer := outer; e_inner := e_inner v1;
                              e_i := e_i v1; e_len := e_len v1 |}]> σ')
      else emit σ v
  end.

Definition expand (q : Query) (f : T → list T) (fuel : nat) (σ : store)
    : result (Iterator * store) :=
  '(next, σ') ← Iterate q fuel σ;
  Ret (expand_next next f (length σ'),
       σ' ++ [CExp {| e_outer := Nil; e_inner := []; e_i := 0; e_len := 0 |}]).

Definition Expand (q : Query) (f : T → list T) : Query :=
  {| Iterate := expand q f |}.

(** *** Skip and Take: [n] is the location of the parameter [n], which
    each call of [skip] and of [take] has afresh *)

Fixpoint skip_loop (next : Iterator) (n : nat) (fuel : nat) (c : nat)
    (σ : store) : result (bool * store) :=
  match c with
  | 0 => Ret (true, σ)
  | S c' =>
      '(_, ok, σ') ← next fuel σ;
      if ok : bool then skip_loop next n fuel c' (<[n := CInt (Z.of_nat c')]> σ')
      else Ret (false, σ')
  end.

Definition skip_next (next : Iterator) (n : nat) (fuel : nat) (σ : store)
    : result (T * bool * store) :=
  v ← load_int σ n;
  if bool_decide (v < 0)%Z then Ret (Nil, false, σ)
  else
    '(ran, σ') ← skip_loop next n fuel (Z.to_nat v) σ;
    if ran : bool then next fuel σ' else Ret (Nil, false, σ').

Definition skip (q : Query) (n : Z) (fuel : nat) (σ : store)
    : result (Iterator * store) :=
  '(next, σ') ← Iterate q fuel σ;
  Ret (skip_next next (length σ'), σ' ++ [CInt n]).

Definition Skip (q : Query) (n : Z) : Query :=
  {| Iterate := skip q n |}.

Definition take_next (next : Iterator) (n : nat) (fuel : nat) (σ : store)
    : result (T * bool * store) :=
  v ← load_int σ n;
  if bool_decide (v ≤ 0)%Z then Ret (Nil, false, σ)
  else next fuel (<[n := CInt (v - 1)]> σ).

Definition take_ (q : Query) (n : Z) (fuel : nat) (σ : store)
    : result (Iterator * store) :=
  '(next, σ') ← Iterate q fuel σ;
  Ret (take_next next (length σ'), σ' ++ [CInt n]).

Definition Take (q : Query) (n : Z) : Query :=
  {| Iterate := take_ q n |}.

(** *** Join: the table is built from a fresh iterator of [inner] and is
    not written afterwards; [s] is the location of the variable [s] *)

Fixpoint makeLut_loop (next : Iterator) (f : T → T) (fuel : nat) (σ : store)
    (res : gmap T (list T)) : result (gmap T (list T) * store) :=
  match fuel with
  | 0 => Timeout
  | S k =>
      '(elem, ok, σ') ← next k σ;
      if ok : bool then
        let key := f elem in
        makeLut_loop next f k σ'
          (<[key := default [] (res !! key) ++ [elem]]> res)
      else Ret (res, σ')
  end.

Definition makeLut (it : Iterator) (f : T → T) (fuel : nat) (σ : store)
    : result (gmap T (list T) * store) :=
  makeLut_loop it f fuel σ ∅.

Fixpoint join_seek (next : Iterator) (l : gmap T (list T)) (outKeySel : T → T)
    (s : nat) (fuel : nat) (σ : store) : result (bool * store) :=
  match fuel with
  | 0 => Timeout
  | S k =>
      '(outer, ok, σ') ← next k σ;
      if ok : bool then
        let '(inner, has) :=
          match l !! outKeySel outer with
          | Some g => (g, true)
          | None => ([], false)
          end in
        let σ'' := <[s := CJoin {| j_outer := outer; j_inner := inner;
                                   j_i := 0; j_len := length inner |}]> σ' in
        if has : bool then Ret (true, σ'') else join_seek next l outKeySel s k σ''
      else
        v ← load_join σ' s;
        Ret (false,
             <[s := CJoin {| j_outer := outer; j_inner := j_inner v;
                             j_i := j_i v; j_len := j_len v |}]> σ')
  end.

Definition join_next (next : Iterator) (l : gmap T (list T))
    (outKeySel : T → T) (resultSel : T → T → T) (s : nat)
    (fuel : nat) (σ : store) : result (T * bool * store) :=
  v ← load_join σ s;
  '(ok, σ1) ←
    (if bool_decide (j_len v ≤ j_i v) then join_seek next l outKeySel s fuel σ
     else Ret (true, σ));
  if ok : bool then
    v1 ← load_join σ1 s;
    inn ← index (j_inner v1) (j_i v1);
    Ret (resultSel (j_outer v1) inn, true,
         <[s := CJoin {| j_outer := j_outer v1; j_inner := j_inner v1;
                         j_i := S (j_i v1); j_len := j_len v1 |}]> σ1)
  else Ret (Nil, false, σ1).

Definition join (q inner : Query) (outKeySel innKeySel : T → T)
    (resultSel : T → T → T) (fuel : nat) (σ : store)
    : result (Iterator * store) :=
  '(next, σ1) ← Iterate q fuel σ;
  '(inn, σ2) ← Iterate inner fuel σ1;
  '(l, σ3) ← makeLut inn innKeySel fuel σ2;
  Ret (join_next next l outKeySel resultSel (length σ3),
       σ3 ++ [CJoin {| j_outer := Nil; j_inner := []; j_i := 0; j_len := 0 |}]).

Definition Join (q inner : Query) (outKeySel innKeySel : T → T)
    (resultSel : T → T → T) : Query :=
  {| Iterate := join q inner outKeySel innKeySel resultSel |}.

(** *** ToSlice and Sort: the slice that [ToSlice] returns is the slice
    that [by.Sort] sorts and that the closure of [sortBy] reads *)

Fixpoint ToSlice_loop (next : Iterator) (fuel : nat) (σ : store) (a : list T)
    : result (list T * store) :=
  match fuel with
  | 0 => Timeout
  | S k =>
      '(elem, ok, σ') ← next k σ;
      if ok : bool then ToSlice_loop next k σ' (a ++ [elem])
      else Ret (a, σ')
  end.

Definition ToSlice (q : Query) (fuel : nat) (σ : store)
    : result (list T * store) :=
  '(next, σ') ← Iterate q fuel σ;
  ToSlice_loop next fuel σ' [].

Definition sortBy (q : Query) (f : list (T → T → bool)) (fuel : nat)
    (σ : store) : result (Iterator * store) :=
  '(a, σ') ← ToSlice q fuel σ;
  a' ← by_Sort f a;
  Ret (from_next (length σ') (S (length σ')), σ' ++ [CSlice a'; CInt 0]).

Definition Sort (q : Query) (f : list (T → T → bool)) : Query :=
  {| Iterate := sortBy q f |}.

(** *** Iterating a query twice *)

(** Two iterators are obtained from the factory of [q]; then the first is
    drained, then the second.  The result is what the two yielded and the
    store at the end. *)
Definition iterate_twice (q : Query) (fuel : nat) (σ : store)
    : result (list T * list T * store) :=
  '(it1, σ1) ← Iterate q fuel σ;
  '(it2, σ2) ← Iterate q fuel σ1;
  '(a1, σ3) ← ToSlice_loop it1 fuel σ2 [];
  '(a2, σ4) ← ToSlice_loop it2 fuel σ3 [];
  Ret (a1, a2, σ4).

(** [Built σ0 q l]: the query [q] is built from slices of the store [σ0]
    by [From] and the chainable operators, applied to pure callbacks, and
    [l] lists the elements it is to produce.  [MapTo] is applied to
    sequences without nil elements and [Sort] to a non-empty list of
    strict weak orders (or to a sequence of at most one element), where
    they do not panic. *)
Inductive Built (σ0 : store) : Query → list T → Prop :=
| Built_From a l :
    σ0 !! a = Some (CSlice l) →
    Built σ0 (From a) l
| Built_Where q f l :
    Built σ0 q l →
    Built σ0 (Where q f) (filter (λ e, all_hold f e = true) l)
| Built_MapTo q f l :
    Built σ0 q l → Nil ∉ l →
    Built σ0 (MapTo q f) (map f l)
| Built_Expand q f l :
    Built σ0 q l →
    Built σ0 (Expand q f) (concat (map f l))
| Built_Skip q n l :
    Built σ0 q l →
    Built σ0 (Skip q n)
      (if bool_decide (n < 0)%Z then [] else drop (Z.to_nat n) l)
| Built_Take q n l :
    Built σ0 q l →
    Built σ0 (Take q n) (take (Z.to_nat n) l)
| Built_Join q inner outKeySel innKeySel resultSel lo li :
    Built σ0 q lo → Built σ0 inner li →
    Built σ0 (Join q inner outKeySel innKeySel resultSel)
      (joined outKeySel innKeySel resultSel lo li)
| Built_Sort q f l :
    Built σ0 q l → f ≠ [] → Forall StrictWeak f →
    Built σ0 (Sort q f) (isort (chain_less f) l)
| Built_Sort_short q l :
    Built σ0 q l → length l ≤ 1 →
    Built σ0 (Sort q []) l.

End store.
End Store.

(** [Sim σ0 lo it nxt rep len]: the closure [it], whose variables are the
    [len] cells from location [lo] on, does on the store what the state
    machine [nxt] does on its state, [rep s] being the cells of the
    variables in state [s]; whatever the other cells hold, as long as the
    cells of [σ0], the slices of the sources among them, are as they
    were. *)
Definition Sim {T : Type} (σ0 : list (@Store.cell T)) (lo : nat) {U : Type}
    (it : @Store.Iterator T) (nxt : nat → U → result (T * bool * U))
    (rep : U → list (@Store.cell T)) (len : nat) : Prop :=
  (∀ s, length (rep s) = len) ∧
  ∀ k s pre post,
    σ0 `prefix_of` pre → length pre = lo →
    it k (pre ++ rep s ++ post) =
      match nxt k s with
      | Ret (e, ok, s') => Ret (e, ok, pre ++ rep s' ++ post)
      | Panic => Panic
      | Timeout => Timeout
      end.

(** ** Fuel *)

Section fuel.
Context {A : Type}.
Implicit Types c : nat → result A.

Lemma Returns_inj c a b : Returns c a → Returns c b → a = b.
Proof.
  intros [k1 H1] [k2 H2].
  specialize (H1 (k1 `max` k2) ltac:(lia)).
  specialize (H2 (k1 `max` k2) ltac:(lia)).
  congruence.
Qed.

Lemma Returns_const (a : A) : Returns (λ _, Ret a) a.
Proof. by exists 0. Qed.

Lemma Returns_not_Panics c a : Returns c a → ¬ Panics c.
Proof.
  intros [k1 H1] [k2 H2].
  specialize (H1 (k1 `max` k2) ltac:(lia)).
  specialize (H2 (k1 `max` k2) ltac:(lia)).
  congruence.
Qed.

Lemma Returns_bind {B} (c : nat → result B) (f : B → nat → result A) b a :
  Returns c b → Returns (f b) a → Returns (λ k, x ← c k; f x k) a.
Proof.
  intros [k1 H1] [k2 H2]. exists (k1 `max` k2). intros k Hk.
  rewrite H1 by lia. simpl. apply H2. lia.
Qed.

Lemma Panics_bind {B} (c : nat → result B) (f : B → nat → result A) b :
  Returns c b → Panics (f b) → Panics (λ k, x ← c k; f x k).
Proof.
  intros [k1 H1] [k2 H2]. exists (k1 `max` k2). intros k Hk.
  rewrite H1 by lia. simpl. apply H2. lia.
Qed.

Lemma Panics_bind_l {B} (c : nat → result B) (f : B → nat → result A) :
  Panics c → Panics (λ k, x ← c k; f x k).
Proof. intros [k1 H1]. exists k1. intros k Hk. by rewrite H1. Qed.

End fuel.

(** [fuel_step k0] proves a [Returns] goal about a loop at fuel above
    [S k0], exposing one iteration. *)
Ltac fuel_step k0 :=
  exists (S k0); intros [|?k] ?Hk; [lia|]; simpl.

Section stream_facts.
Context {T : Type} (Nil : T).
Context {U : Type} (nxt : nat → U → result (T * bool * U)).

Lemma Exhausted_step s :
  Exhausted Nil nxt s →
  ∃ s', Returns (λ k, nxt k s) (Nil, false, s') ∧ Exhausted Nil nxt s'.
Proof.
  intros Hs. destruct (Hs 1) as (s' & Hr & _). exists s'. split; [done|].
  intros n. destruct (Hs (S n)) as (s'' & Hr' & Hn).
  pose proof (Returns_inj _ _ _ Hr Hr'). by simplify_eq.
Qed.

(** Exhaustion is proved by exhibiting an invariant of the states reached. *)
Lemma Exhausted_inv (I : U → Prop) s :
  I s →
  (∀ s0, I s0 → ∃ s1, Returns (λ k, nxt k s0) (Nil, false, s1) ∧ I s1) →
  Exhausted Nil nxt s.
Proof.
  intros Hs Hstep n. revert s Hs.
  induction n as [|n IH]; intros s Hs; [done|].
  destruct (Hstep s Hs) as (s1 & Hr & H1). exists s1. eauto.
Qed.

(** The stream depends only on what the first call returns. *)
Lemma Yields_first_call s s0 l :
  (∀ r, Returns (λ k, nxt k s0) r → Returns (λ k, nxt k s) r) →
  Yields Nil nxt s0 l → Yields Nil nxt s l.
Proof.
  intros Hsim. destruct l as [|e l]; simpl.
  - intros Hs [|n]; [done|]. destruct (Hs (S n)) as (s' & Hr & Hn).
    exists s'. eauto.
  - intros (s' & Hr & Hl). exists s'. eauto.
Qed.

Lemma Yields_inj s l1 l2 :
  Yields Nil nxt s l1 → Yields Nil nxt s l2 → l1 = l2.
Proof.
  revert s l2. induction l1 as [|e l1 IH]; intros s [|e2 l2]; simpl; try done.
  - intros Hs (s' & Hr & _). destruct (Hs 1) as (s1 & Hr1 & _).
    by pose proof (Returns_inj _ _ _ Hr Hr1).
  - intros (s' & Hr & _) Hs. destruct (Hs 1) as (s1 & Hr1 & _).
    by pose proof (Returns_inj _ _ _ Hr Hr1).
  - intros (s1 & Hr1 & Hl1) (s2 & Hr2 & Hl2).
    pose proof (Returns_inj _ _ _ Hr1 Hr2) as Heq. simplify_eq.
    f_equal. eauto.
Qed.

End stream_facts.

(** ** Sources, materialisation and filters *)

Section operators.
Context {T : Type} `{Countable T} (Nil : T).

Lemma index_lookup {A} (a : list A) i e : a !! i = Some e → index a i = Ret e.
Proof. unfold index. by intros ->. Qed.

Lemma from_next_exhausted (a : list T) i :
  length a ≤ i → Exhausted Nil (from_next Nil a) i.
Proof.
  intros Hi. apply (Exhausted_inv _ _ (λ j, length a ≤ j)); [done|].
  intros j Hj. exists j. split; [|done]. exists 0. intros k _.
  unfold from_next. by rewrite bool_decide_eq_false_2 by lia.
Qed.

Lemma from_next_yields (a : list T) i :
  Yields Nil (from_next Nil a) i (drop i a).
Proof.
  remember (drop i a) as l eqn:Hl. revert i Hl.
  induction l as [|e l IH]; intros i Hl; simpl.
  - apply from_next_exhausted.
    destruct (decide (length a ≤ i)) as [|Hn]; [done|].
    apply (f_equal length) in Hl. rewrite length_drop in Hl. simpl in Hl. lia.
  - assert (a !! i = Some e) as Hi.
    { rewrite <-(Nat.add_0_r i), <-lookup_drop, <-Hl. done. }
    exists (S i). split.
    + exists 0. intros k _. unfold from_next.
      rewrite bool_decide_eq_true_2 by (by eapply lookup_lt_Some).
      by rewrite (index_lookup _ _ _ Hi).
    + apply IH. rewrite (drop_S _ _ _ Hi) in Hl. by simplify_eq.
Qed.

Lemma Denotes_From (a : list T) : Denotes Nil (From Nil a) a.
Proof.
  exists (from Nil a). split; [apply Returns_const|]. apply (from_next_yields a 0).
Qed.

Section upstream.
Context {U : Type} (nxt : nat → U → result (T * bool * U)).

Lemma ToSlice_loop_yields s l acc :
  Yields Nil nxt s l → Returns (λ k, ToSlice_loop nxt k s acc) (acc ++ l).
Proof.
  revert s acc. induction l as [|e l IH]; intros s acc; simpl.
  - intros Hs. destruct (Exhausted_step _ _ _ Hs) as (s' & [k0 Hr] & _).
    fuel_step k0. rewrite Hr by lia. simpl. by rewrite app_nil_r.
  - intros (s' & [k1 Hr] & Hl).
    destruct (IH s' (acc ++ [e]) Hl) as [k2 Hloop].
    fuel_step (k1 `max` k2). rewrite Hr by lia. simpl.
    rewrite Hloop by lia. by rewrite <-app_assoc.
Qed.

(** *** Where *)

Lemma all_hold_forallb (f : list (T → bool)) e :
  all_hold f e = forallb (λ fk, fk e) f.
Proof.
  unfold all_hold.
  assert (∀ b, fold_left (λ has fk, has && fk e) f b = b && forallb (λ fk, fk e) f)
    as Hgen; [|by rewrite Hgen].
  induction f as [|fk f IH]; intros b; simpl; [by rewrite andb_true_r|].
  by rewrite IH, andb_assoc.
Qed.

Lemma where_next_pass f s e s' :
  Returns (λ k, nxt k s) (e, true, s') → all_hold f e = true →
  Returns (λ k, where_next nxt f k s) (e, true, s').
Proof.
  intros [k0 Hr] He. fuel_step k0. rewrite Hr by lia. simpl. by rewrite He.
Qed.

Lemma where_next_skip f s e s' r :
  Returns (λ k, nxt k s) (e, true, s') → all_hold f e = false →
  Returns (λ k, where_next nxt f k s') r →
  Returns (λ k, where_next nxt f k s) r.
Proof.
  intros [k0 Hr] He [k1 Hw]. fuel_step (k0 `max` k1).
  rewrite Hr by lia. simpl. rewrite He. apply Hw. lia.
Qed.

Lemma where_next_done f s e s' :
  Returns (λ k, nxt k s) (e, false, s') →
  Returns (λ k, where_next nxt f k s) (e, false, s').
Proof. intros [k0 Hr]. fuel_step k0. by rewrite Hr by lia. Qed.

Lemma where_next_yields f s l :
  Yields Nil nxt s l →
  Yields Nil (where_next nxt f) s (filter (λ e, all_hold f e = true) l).
Proof.
  revert s. induction l as [|e l IH]; intros s; simpl.
  - intros Hs. apply (Exhausted_inv _ _ (Exhausted Nil nxt)); [done|].
    intros s0 Hs0. destruct (Exhausted_step _ _ _ Hs0) as (s1 & Hr & Hs1).
    exists s1. split; [|done]. by apply where_next_done.
  - intros (s' & Hr & Hl). rewrite filter_cons.
    destruct (decide (all_hold f e = true)) as [He|He].
    + exists s'. split; [by apply where_next_pass|]. by apply IH.
    + apply (Yields_first_call _ _ _ s'); [|by apply IH].
      intros r. apply (where_next_skip _ _ e); [done|].
      by destruct (all_hold f e).
Qed.

End upstream.

Lemma Denotes_ToSlice q l : Denotes Nil q l → Returns (ToSlice q) l.
Proof.
  intros (it & Hit & Hl). unfold ToSlice.
  apply (Returns_bind _ (λ it k, ToSlice_loop (next it) k (st it) []) it); [done|].
  apply (ToSlice_loop_yields _ _ _ []). done.
Qed.

Lemma Denotes_Where q f l :
  Denotes Nil q l →
  Denotes Nil (Where q f) (filter (λ e, all_hold f e = true) l).
Proof.
  intros (up & Hup & Hl).
  exists {| St := St up; st := st up; next := where_next (next up) f |}.
  split; [|by apply where_next_yields].
  apply (Returns_bind _ (λ up _, Ret _) up); [done|]. apply Returns_const.
Qed.

End operators.

(** ** Expand *)

Section expand_facts.
Context {T : Type} (Nil : T).
Context {U : Type} (nxt : nat → U → result (T * bool * U)) (f : T → list T).

Lemma expand_next_emit u s x :
  e_i s < e_len s → e_inner s !! e_i s = Some x →
  Returns (λ k, expand_next Nil nxt f k (u, s))
    (x, true, (u, {| e_outer := e_outer s; e_inner := e_inner s;
                      e_i := S (e_i s); e_len := e_len s |})).
Proof.
  intros Hi Hx. fuel_step 0.
  rewrite bool_decide_eq_false_2 by lia.
  rewrite bool_decide_eq_true_2 by lia.
  by rewrite (index_lookup _ _ _ Hx).
Qed.

Lemma expand_next_fetch u s o u' r :
  e_len s ≤ e_i s →
  Returns (λ k, nxt k u) (o, true, u') →
  Returns (λ k, expand_next Nil nxt f k
                  (u', {| e_outer := o; e_inner := f o;
                          e_i := 0; e_len := length (f o) |})) r →
  Returns (λ k, expand_next Nil nxt f k (u, s)) r.
Proof.
  intros Hi [k0 Hr] [k1 Hx]. fuel_step (k0 `max` k1).
  rewrite bool_decide_eq_true_2 by lia. rewrite Hr by lia. simpl.
  destruct (f o) as [|x xs] eqn:Hfo; simpl.
  - apply Hx. lia.
  - specialize (Hx (S k1) ltac:(lia)). simpl in Hx. by rewrite <-Hx.
Qed.

Lemma expand_next_done u s o u' :
  e_len s ≤ e_i s →
  Returns (λ k, nxt k u) (o, false, u') →
  Returns (λ k, expand_next Nil nxt f k (u, s))
    (Nil, false, (u', {| e_outer := o; e_inner := e_inner s;
                         e_i := e_i s; e_len := e_len s |})).
Proof.
  intros Hi [k0 Hr]. fuel_step k0.
  rewrite bool_decide_eq_true_2 by lia. by rewrite Hr by lia.
Qed.

Lemma expand_next_exhausted u s :
  Exhausted Nil nxt u → e_len s ≤ e_i s →
  Exhausted Nil (expand_next Nil nxt f) (u, s).
Proof.
  intros Hu Hi.
  apply (Exhausted_inv _ _
           (λ us, Exhausted Nil nxt us.1 ∧ e_len us.2 ≤ e_i us.2)); [done|].
  intros [u0 s0] [Hu0 Hi0]; simpl in *.
  destruct (Exhausted_step _ _ _ Hu0) as (u1 & Hr & Hu1).
  eexists. split; [by apply expand_next_done|]. done.
Qed.

(** The rest of the current expansion is returned before the upstream is
    called again. *)
Lemma expand_next_drain u s R :
  e_len s = length (e_inner s) →
  (∀ s', e_len s' ≤ e_i s' → Yields Nil (expand_next Nil nxt f) (u, s') R) →
  Yields Nil (expand_next Nil nxt f) (u, s) (drop (e_i s) (e_inner s) ++ R).
Proof.
  intros Hlen HR.
  remember (e_len s - e_i s) as n eqn:Hn. revert s Hlen Hn.
  induction n as [|n IH]; intros s Hlen Hn.
  - rewrite drop_ge by lia. apply HR. lia.
  - destruct (lookup_lt_is_Some_2 (e_inner s) (e_i s)) as [x Hx]; [lia|].
    rewrite (drop_S _ _ _ Hx). simpl. eexists. split.
    + apply expand_next_emit; [lia|done].
    + apply (IH (mkExpState _ _ _ _)); simpl; [done|lia].
Qed.

Lemma expand_next_yields u s l :
  e_len s ≤ e_i s →
  Yields Nil nxt u l →
  Yields Nil (expand_next Nil nxt f) (u, s) (concat (map f l)).
Proof.
  revert u s. induction l as [|e l IH]; intros u s Hi; simpl.
  - intros Hu. by apply expand_next_exhausted.
  - intros (u' & Hr & Hl).
    apply (Yields_first_call _ _ _
             (u', {| e_outer := e; e_inner := f e;
                     e_i := 0; e_len := length (f e) |})).
    + intros r. by apply expand_next_fetch.
    + pose proof (expand_next_drain u'
                    {| e_outer := e; e_inner := f e;
                       e_i := 0; e_len := length (f e) |}
                    (concat (map f l)) eq_refl) as Hd.
      simpl in Hd. apply Hd. intros s' Hs'. by apply IH.
Qed.

End expand_facts.

Lemma Denotes_Expand {T : Type} (Nil : T) q (f : T → list T) l :
  Denotes Nil q l → Denotes Nil (Expand Nil q f) (concat (map f l)).
Proof.
  intros (up & Hup & Hl). eexists. split.
  - apply (Returns_bind _ (λ up _, Ret _) up); [done|]. apply Returns_const.
  - simpl. apply expand_next_yields; [simpl; lia|done].
Qed.

(** ** Take and Skip *)

Section take_skip_facts.
Context {T : Type} (Nil : T).
Context {U : Type} (nxt : nat → U → result (T * bool * U)).

Lemma take_next_exhausted u (n : Z) :
  Exhausted Nil nxt u ∨ (n ≤ 0)%Z → Exhausted Nil (take_next Nil nxt) (u, n).
Proof.
  intros Hun.
  apply (Exhausted_inv _ _
           (λ un, Exhausted Nil nxt un.1 ∨ (un.2 ≤ 0)%Z)); [done|].
  intros [u0 n0] Hinv; simpl in *.
  destruct (decide (n0 ≤ 0)%Z) as [Hn|Hn].
  - exists (u0, n0). split; [|by right]. exists 0. intros k _.
    unfold take_next. by rewrite bool_decide_eq_true_2.
  - destruct Hinv as [Hu0|]; [|done].
    destruct (Exhausted_step _ _ _ Hu0) as (u1 & [k0 Hr] & Hu1).
    exists (u1, (n0 - 1)%Z). split; [|by left]. exists k0. intros k Hk.
    unfold take_next. rewrite bool_decide_eq_false_2 by done.
    by rewrite Hr.
Qed.

Lemma take_next_yields u (n : Z) l :
  Yields Nil nxt u l →
  Yields Nil (take_next Nil nxt) (u, n) (take (Z.to_nat n) l).
Proof.
  revert u n. induction l as [|e l IH]; intros u n.
  - rewrite take_nil. intros Hu. apply take_next_exhausted. by left.
  - intros (u' & [k0 Hr] & Hl).
    destruct (decide (n ≤ 0)%Z) as [Hn|Hn].
    + replace (Z.to_nat n) with 0 by lia. apply take_next_exhausted. by right.
    + replace (Z.to_nat n) with (S (Z.to_nat (n - 1))) by lia. simpl.
      exists (u', (n - 1)%Z). split; [|by apply IH].
      exists k0. intros k Hk. unfold take_next.
      rewrite bool_decide_eq_false_2 by done. by rewrite Hr.
Qed.

Lemma skip_loop_ran c u l :
  c ≤ length l → Yields Nil nxt u l →
  ∃ u', Returns (λ k, skip_loop nxt k c u) (true, u', 0) ∧
        Yields Nil nxt u' (drop c l).
Proof.
  revert u l. induction c as [|c IH]; intros u l Hc Hl.
  - exists u. split; [apply Returns_const|done].
  - destruct l as [|e l]; [simpl in Hc; lia|].
    destruct Hl as (u1 & [k0 Hr] & Hl).
    destruct (IH u1 l) as (u' & [k1 Hloop] & Hd); [simpl in Hc; lia|done|].
    exists u'. split; [|done]. exists (k0 `max` k1). intros k Hk. simpl.
    rewrite Hr by lia. simpl. apply Hloop. lia.
Qed.

Lemma skip_loop_stopped c u l :
  length l < c → Yields Nil nxt u l →
  ∃ u' c', Returns (λ k, skip_loop nxt k c u) (false, u', c') ∧
           Exhausted Nil nxt u'.
Proof.
  revert u l. induction c as [|c IH]; intros u l Hc Hl; [lia|].
  destruct l as [|e l].
  - destruct (Exhausted_step _ _ _ Hl) as (u1 & [k0 Hr] & Hu1).
    exists u1, (S c). split; [|done]. exists k0. intros k Hk. simpl.
    by rewrite Hr.
  - destruct Hl as (u1 & [k0 Hr] & Hl).
    destruct (IH u1 l) as (u' & c' & [k1 Hloop] & Hd); [simpl in Hc; lia|done|].
    exists u', c'. split; [|done]. exists (k0 `max` k1). intros k Hk. simpl.
    rewrite Hr by lia. simpl. apply Hloop. lia.
Qed.

Lemma skip_next_negative u (n : Z) :
  (n < 0)%Z → Exhausted Nil (skip_next Nil nxt) (u, n).
Proof.
  intros Hn. apply (Exhausted_inv _ _ (λ un, (un.2 < 0)%Z)); [done|].
  intros [u0 n0] Hn0; simpl in *. exists (u0, n0). split; [|done].
  exists 0. intros k _. unfold skip_next. by rewrite bool_decide_eq_true_2.
Qed.

Lemma skip_next_exhausted u (n : Z) :
  Exhausted Nil nxt u → Exhausted Nil (skip_next Nil nxt) (u, n).
Proof.
  intros Hu.
  apply (Exhausted_inv _ _ (λ un, Exhausted Nil nxt un.1)); [done|].
  intros [u0 n0] Hu0; simpl in *.
  destruct (decide (n0 < 0)%Z) as [Hn|Hn].
  { exists (u0, n0). split; [|done]. exists 0. intros k _.
    unfold skip_next. by rewrite bool_decide_eq_true_2. }
  destruct (decide (Z.to_nat n0 = 0)) as [Hz|Hz].
  - destruct (Exhausted_step _ _ _ Hu0) as (u1 & [k0 Hr] & Hu1).
    exists (u1, 0%Z). split; [|done]. exists k0. intros k Hk.
    unfold skip_next. rewrite bool_decide_eq_false_2 by done.
    rewrite Hz. simpl. by rewrite Hr.
  - destruct (skip_loop_stopped (Z.to_nat n0) u0 []) as (u1 & c' & [k0 Hr] & Hu1);
      [simpl; lia|done|].
    exists (u1, Z.of_nat c'). split; [|done]. exists k0. intros k Hk.
    unfold skip_next. rewrite bool_decide_eq_false_2 by done.
    by rewrite Hr.
Qed.

Lemma skip_next_zero u l :
  Yields Nil nxt u l → Yields Nil (skip_next Nil nxt) (u, 0%Z) l.
Proof.
  revert u. induction l as [|e l IH]; intros u.
  - apply skip_next_exhausted.
  - intros (u' & [k0 Hr] & Hl). exists (u', 0%Z). split; [|by apply IH].
    exists k0. intros k Hk. unfold skip_next. simpl. by rewrite Hr.
Qed.

Lemma skip_next_yields u (n : Z) l :
  (0 ≤ n)%Z → Yields Nil nxt u l →
  Yields Nil (skip_next Nil nxt) (u, n) (drop (Z.to_nat n) l).
Proof.
  intros Hn Hl. destruct (decide (Z.to_nat n ≤ length l)) as [Hc|Hc].
  - destruct (skip_loop_ran _ _ _ Hc Hl) as (u' & [k0 Hloop] & Hd).
    apply (Yields_first_call _ _ _ (u', 0%Z)); [|by apply skip_next_zero].
    intros r [k1 Hr]. exists (k0 `max` k1). intros k Hk.
    specialize (Hr k ltac:(lia)). rewrite <-Hr. unfold skip_next.
    rewrite !bool_decide_eq_false_2 by lia. rewrite Hloop by lia. done.
  - rewrite drop_ge by lia.
    destruct (skip_loop_stopped (Z.to_nat n) u l) as (u' & c' & [k0 Hloop] & Hu');
      [lia|done|].
    intros [|m]; [done|]. exists (u', Z.of_nat c'). split.
    + exists k0. intros k Hk. unfold skip_next.
      rewrite bool_decide_eq_false_2 by lia. by rewrite Hloop.
    + by apply skip_next_exhausted.
Qed.

End take_skip_facts.

Section take_skip_queries.
Context {T : Type} (Nil : T).

Lemma Denotes_Take q (n : Z) l :
  Denotes Nil q l → Denotes Nil (Take Nil q n) (take (Z.to_nat n) l).
Proof.
  intros (up & Hup & Hl). eexists. split.
  - apply (Returns_bind _ (λ up _, Ret _) up); [done|]. apply Returns_const.
  - simpl. by apply take_next_yields.
Qed.

Lemma Denotes_Skip q (n : Z) l :
  (0 ≤ n)%Z → Denotes Nil q l → Denotes Nil (Skip Nil q n) (drop (Z.to_nat n) l).
Proof.
  intros Hn (up & Hup & Hl). eexists. split.
  - apply (Returns_bind _ (λ up _, Ret _) up); [done|]. apply Returns_const.
  - simpl. by apply skip_next_yields.
Qed.

Lemma Denotes_Skip_negative q (n : Z) it :
  (n < 0)%Z → Returns (Iterate q) it → Denotes Nil (Skip Nil q n) [].
Proof.
  intros Hn Hit. eexists. split.
  - apply (Returns_bind _ (λ up _, Ret _) it); [done|]. apply Returns_const.
  - simpl. by apply skip_next_negative.
Qed.

Lemma Denotes_Take_nonpositive q (n : Z) it :
  (n ≤ 0)%Z → Returns (Iterate q) it → Denotes Nil (Take Nil q n) [].
Proof.
  intros Hn Hit. eexists. split.
  - apply (Returns_bind _ (λ up _, Ret _) it); [done|]. apply Returns_const.
  - simpl. apply take_next_exhausted. by right.
Qed.

End take_skip_queries.

(** ** Join *)

Section lut_facts.
Context {T : Type} `{Countable T} (Nil : T).
Context (f : T → T).
Local Abbreviation lut_add := (lut_add f).
Local Abbreviation group := (group f).

Lemma lut_add_lookup m li key :
  foldl lut_add m li !! key =
    match group li key with
    | [] => m !! key
    | g => Some (default [] (m !! key) ++ g)
    end.
Proof.
  revert m. induction li as [|e li IH]; intros m; simpl; [done|].
  rewrite IH. unfold group. rewrite filter_cons. unfold lut_add.
  destruct (decide (f e = key)) as [<-|Hne].
  - rewrite lookup_insert_eq. simpl.
    destruct (filter _ li); simpl; [done|]. by rewrite <-app_assoc.
  - by rewrite lookup_insert_ne.
Qed.

Lemma makeLut_lookup li key :
  foldl lut_add ∅ li !! key =
    match group li key with [] => None | g => Some g end.
Proof. rewrite lut_add_lookup, lookup_empty. by destruct (group li key). Qed.

Lemma makeLut_loop_yields {U : Type} (nxt : nat → U → result (T * bool * U))
    s li m :
  Yields Nil nxt s li →
  Returns (λ k, makeLut_loop nxt f k s m) (foldl lut_add m li).
Proof.
  revert s m. induction li as [|e li IH]; intros s m; simpl.
  - intros Hs. destruct (Exhausted_step _ _ _ Hs) as (s' & [k0 Hr] & _).
    fuel_step k0. by rewrite Hr by lia.
  - intros (s' & [k1 Hr] & Hl).
    destruct (IH s' (lut_add m e) Hl) as [k2 Hloop].
    fuel_step (k1 `max` k2). rewrite Hr by lia. simpl. apply Hloop. lia.
Qed.

End lut_facts.

Section join_facts.
Context {T : Type} `{Countable T} (Nil : T).
Context {U : Type} (nxt : nat → U → result (T * bool * U)).
Context (m : gmap T (list T)) (outKeySel : T → T) (resultSel : T → T → T).

(** No key of the table is bound to an empty group. *)
Hypothesis m_nonempty : ∀ key, m !! key ≠ Some [].

Local Abbreviation jnext := (join_next Nil nxt m outKeySel resultSel).
Local Abbreviation rows := (rows m outKeySel resultSel).

Lemma join_next_emit u s x :
  j_i s < j_len s → j_inner s !! j_i s = Some x →
  Returns (λ k, jnext k (u, s))
    (resultSel (j_outer s) x, true,
     (u, {| j_outer := j_outer s; j_inner := j_inner s;
            j_i := S (j_i s); j_len := j_len s |})).
Proof.
  intros Hi Hx. exists 0. intros k _. unfold join_next.
  rewrite bool_decide_eq_false_2 by lia. simpl.
  by rewrite (index_lookup _ _ _ Hx).
Qed.

Lemma join_next_miss u s o u' r :
  j_len s ≤ j_i s →
  Returns (λ k, nxt k u) (o, true, u') →
  m !! outKeySel o = None →
  Returns (λ k, jnext k (u', {| j_outer := o; j_inner := [];
                                j_i := 0; j_len := 0 |})) r →
  Returns (λ k, jnext k (u, s)) r.
Proof.
  intros Hi [k0 Hr] Hm [k1 Hx]. exists (S (k0 `max` k1)).
  intros [|k] Hk; [lia|]. specialize (Hx k ltac:(lia)).
  unfold join_next in *.
  rewrite bool_decide_eq_true_2 in Hx by (simpl; lia).
  rewrite bool_decide_eq_true_2 by lia. simpl join_seek.
  rewrite Hr by lia. simpl. rewrite Hm. exact Hx.
Qed.

Lemma join_next_hit u s o u' g r :
  j_len s ≤ j_i s →
  Returns (λ k, nxt k u) (o, true, u') →
  m !! outKeySel o = Some g →
  Returns (λ k, jnext k (u', {| j_outer := o; j_inner := g;
                                j_i := 0; j_len := length g |})) r →
  Returns (λ k, jnext k (u, s)) r.
Proof.
  intros Hi [k0 Hr] Hm [k1 Hx]. exists (S (k0 `max` k1)).
  intros [|k] Hk; [lia|]. specialize (Hx k ltac:(lia)).
  assert (g ≠ []) as Hg by (intros ->; by eapply m_nonempty).
  unfold join_next in *.
  rewrite bool_decide_eq_false_2 in Hx
    by (destruct g; [done|simpl; lia]).
  rewrite bool_decide_eq_true_2 by lia. simpl join_seek.
  rewrite Hr by lia. simpl. rewrite Hm. exact Hx.
Qed.

Lemma join_next_done u s o u' :
  j_len s ≤ j_i s →
  Returns (λ k, nxt k u) (o, false, u') →
  Returns (λ k, jnext k (u, s))
    (Nil, false, (u', {| j_outer := o; j_inner := j_inner s;
                         j_i := j_i s; j_len := j_len s |})).
Proof.
  intros Hi [k0 Hr]. fuel_step k0. unfold join_next.
  rewrite bool_decide_eq_true_2 by lia. simpl join_seek.
  by rewrite Hr by lia.
Qed.

Lemma join_next_exhausted u s :
  Exhausted Nil nxt u → j_len s ≤ j_i s → Exhausted Nil jnext (u, s).
Proof.
  intros Hu Hi.
  apply (Exhausted_inv _ _
           (λ us, Exhausted Nil nxt us.1 ∧ j_len us.2 ≤ j_i us.2)); [done|].
  intros [u0 s0] [Hu0 Hi0]; simpl in *.
  destruct (Exhausted_step _ _ _ Hu0) as (u1 & Hr & Hu1).
  eexists. split; [by apply join_next_done|]. done.
Qed.

(** The rest of the matched group is returned before the next outer
    element is looked up. *)
Lemma join_next_drain u s R :
  j_len s = length (j_inner s) →
  (∀ s', j_len s' ≤ j_i s' → Yields Nil jnext (u, s') R) →
  Yields Nil jnext (u, s)
    (map (resultSel (j_outer s)) (drop (j_i s) (j_inner s)) ++ R).
Proof.
  intros Hlen HR.
  remember (j_len s - j_i s) as n eqn:Hn. revert s Hlen Hn.
  induction n as [|n IH]; intros s Hlen Hn.
  - rewrite drop_ge by lia. apply HR. lia.
  - destruct (lookup_lt_is_Some_2 (j_inner s) (j_i s)) as [x Hx]; [lia|].
    rewrite (drop_S _ _ _ Hx). simpl. eexists. split.
    + apply join_next_emit; [lia|done].
    + apply (IH (mkJoinState _ _ _ _)); simpl; [done|lia].
Qed.

Lemma join_next_yields u s lo :
  j_len s ≤ j_i s →
  Yields Nil nxt u lo →
  Yields Nil jnext (u, s) (concat (map rows lo)).
Proof.
  revert u s. induction lo as [|o lo IH]; intros u s Hi; simpl.
  - intros Hu. by apply join_next_exhausted.
  - intros (u' & Hr & Hl). unfold rows at 1.
    destruct (m !! outKeySel o) as [g|] eqn:Hm; simpl.
    + apply (Yields_first_call _ _ _
               (u', {| j_outer := o; j_inner := g;
                       j_i := 0; j_len := length g |})).
      * intros r. by apply join_next_hit.
      * pose proof (join_next_drain u'
                      {| j_outer := o; j_inner := g;
                         j_i := 0; j_len := length g |}
                      (concat (map rows lo)) eq_refl) as Hd.
        simpl in Hd. apply Hd. intros s' Hs'. by apply IH.
    + apply (Yields_first_call _ _ _
               (u', {| j_outer := o; j_inner := [];
                       j_i := 0; j_len := 0 |})).
      * intros r. by apply join_next_miss.
      * by apply IH.
Qed.

End join_facts.

(** ** The sorter *)

Section sorter_facts.
Context {T : Type}.
Implicit Types (s : sorter (T:=T)) (f : list (T → T → bool)).

Lemma Less_loop_chain s i j x y c k :
  k + S c = length (less s) →
  t s !! i = Some x → t s !! j = Some y →
  Less_loop s i j c k = Ret (chain_less (drop k (less s)) x y).
Proof.
  revert k. induction c as [|c IH]; intros k Hk Hx Hy; simpl;
    destruct (lookup_lt_is_Some_2 (less s) k) as [ck Hck]; try lia;
    rewrite (drop_S _ _ _ Hck);
    rewrite (index_lookup _ _ _ Hck), (index_lookup _ _ _ Hx),
      (index_lookup _ _ _ Hy); simpl.
  - rewrite drop_ge by lia. simpl. by destruct (ck x y), (ck y x).
  - destruct (ck x y); [done|]. destruct (ck y x); [done|].
    apply IH; [lia|done..].
Qed.

(** On a non-empty chain [Less] computes the lexicographic order. *)
Lemma Less_chain s i j x y :
  less s ≠ [] → t s !! i = Some x → t s !! j = Some y →
  Less s i j = Ret (chain_less (less s) x y).
Proof.
  intros Hf Hx Hy. unfold Less.
  rewrite (Less_loop_chain s i j x y); [done| |done..].
  destruct (less s); [done|simpl; lia].
Qed.

(** On the empty chain [Less] indexes [s.less[0]] and panics. *)
Lemma Less_empty s i j : less s = [] → Less s i j = Panic.
Proof. intros Hf. unfold Less. rewrite Hf. simpl. by rewrite Hf. Qed.

Lemma insertionSort_inner_insert f rp x r :
  f ≠ [] →
  insertionSort_inner {| t := reverse rp ++ x :: r; less := f |} 0 (length rp)
  = Ret {| t := reverse (insert_left (chain_less f) x rp) ++ r; less := f |}.
Proof.
  intros Hf. revert r. induction rp as [|y rp IH]; intros r; simpl; [done|].
  rewrite reverse_cons, <-app_assoc. simpl.
  assert ((reverse rp ++ y :: x :: r) !! length rp = Some y) as Hy.
  { rewrite lookup_app_r; rewrite length_reverse; [|done].
    by rewrite Nat.sub_diag. }
  assert ((reverse rp ++ y :: x :: r) !! S (length rp) = Some x) as Hx.
  { rewrite lookup_app_r; rewrite length_reverse; [|lia].
    by replace (S (length rp) - length rp) with 1 by lia. }
  rewrite (Less_chain _ _ _ x y); [|done..]. simpl.
  destruct (chain_less f x y) eqn:Hlt; simpl.
  - unfold Swap. simpl.
    rewrite (index_lookup _ _ _ Hx), (index_lookup _ _ _ Hy). simpl.
    replace (<[length rp:=x]> (<[S (length rp):=y]> (reverse rp ++ y :: x :: r)))
      with (reverse rp ++ x :: y :: r).
    + rewrite IH. by rewrite reverse_cons, <-app_assoc.
    + rewrite !insert_app_r_alt by (rewrite length_reverse; lia).
      rewrite length_reverse.
      replace (S (length rp) - length rp) with 1 by lia.
      by rewrite Nat.sub_diag.
  - by rewrite !reverse_cons, <-!app_assoc.
Qed.

Lemma insertionSort_outer_foldl f rp l :
  f ≠ [] →
  insertionSort_outer {| t := reverse rp ++ l; less := f |} 0 (length rp) (length l)
  = Ret {| t := reverse (foldl (λ rp x, insert_left (chain_less f) x rp) rp l);
           less := f |}.
Proof.
  intros Hf. revert rp. induction l as [|x l IH]; intros rp; simpl.
  - by rewrite app_nil_r.
  - rewrite insertionSort_inner_insert by done. simpl.
    pose proof (IH (insert_left (chain_less f) x rp)) as IH'.
    assert (length (insert_left (chain_less f) x rp) = S (length rp)) as Hlen.
    { clear. induction rp as [|y rp IHrp]; simpl; [done|].
      destruct (chain_less f x y); simpl; by rewrite ?IHrp. }
    by rewrite Hlen in IH'.
Qed.

Lemma Stable_isort f l :
  f ≠ [] →
  Stable {| t := l; less := f |} = Ret {| t := isort (chain_less f) l; less := f |}.
Proof.
  intros Hf. unfold Stable, insertionSort, Len, isort. simpl.
  destruct l as [|x l]; simpl; [done|].
  rewrite Nat.sub_0_r.
  by rewrite <-(insertionSort_outer_foldl f [x] l).
Qed.

Lemma by_Sort_isort f l :
  f ≠ [] → by_Sort f l = Ret (isort (chain_less f) l).
Proof. intros Hf. unfold by_Sort. by rewrite Stable_isort. Qed.

(** With no comparator the first comparison of the sort panics. *)
Lemma by_Sort_empty_chain (x y : T) l : by_Sort [] (x :: y :: l) = Panic.
Proof. done. Qed.

Lemma by_Sort_empty_chain_short (l : list T) :
  length l ≤ 1 → by_Sort [] l = Ret l.
Proof. destruct l as [|x [|y l]]; simpl; [done..|lia]. Qed.

End sorter_facts.

(** ** The lexicographic order of a chain of strict weak orders *)

Section chain_facts.
Context {T : Type}.
Implicit Types (f : list (T → T → bool)) (c : T → T → bool).

Lemma chain_less_asym f x y :
  Forall StrictWeak f → chain_less f x y = true → chain_less f y x = false.
Proof.
  induction 1 as [|c f [Hasym _] _ IH]; simpl; [done|].
  destruct (c x y) eqn:Hxy.
  - by rewrite (Hasym _ _ Hxy).
  - destruct (c y x); [done|]. apply IH.
Qed.

Lemma chain_less_negtrans f x y z :
  Forall StrictWeak f →
  chain_less f x y = false → chain_less f y z = false →
  chain_less f x z = false.
Proof.
  induction 1 as [|c f [Hasym Hneg] _ IH]; simpl; [done|].
  destruct (c x y) eqn:Hxy; [done|].
  destruct (c y z) eqn:Hyz; [done|].
  rewrite (Hneg _ _ _ Hxy Hyz).
  destruct (c y x) eqn:Hyx; destruct (c z y) eqn:Hzy;
    destruct (c z x) eqn:Hzx; try done.
  - by rewrite (Hneg _ _ _ Hyz Hzx) in Hyx.
  - by rewrite (Hneg _ _ _ Hyz Hzx) in Hyx.
  - by rewrite (Hneg _ _ _ Hzx Hxy) in Hzy.
Qed.

Lemma chain_less_tied f x y : tied_all f x y = true → chain_less f x y = false.
Proof.
  unfold tied_all. induction f as [|c f IH]; simpl; [done|].
  unfold tied at 1. intros [[Hxy Hyx]%andb_prop Hf]%andb_prop.
  apply negb_true_iff in Hxy, Hyx. rewrite Hxy, Hyx. by apply IH.
Qed.

(** Elements tied with a common element are tied with each other. *)
Lemma tied_all_class f z a b :
  Forall StrictWeak f →
  tied_all f z a = true → tied_all f z b = true → tied_all f a b = true.
Proof.
  unfold tied_all. induction 1 as [|c f [_ Hneg] _ IH]; simpl; [done|].
  unfold tied at 1 3 5.
  intros [[Hza Haz]%andb_prop Hfa]%andb_prop [[Hzb Hbz]%andb_prop Hfb]%andb_prop.
  apply negb_true_iff in Hza, Haz, Hzb, Hbz.
  rewrite (Hneg _ _ _ Haz Hzb), (Hneg _ _ _ Hbz Hza). simpl. by apply IH.
Qed.

(** When every comparator but the last ties, the last one decides. *)
Lemma chain_less_front f c x y :
  tied_front f x y = true → last f = Some c → chain_less f y x = c y x.
Proof.
  unfold tied_front, tied_all.
  destruct f as [|c0 f _] using rev_ind; [done|].
  rewrite removelast_last, last_snoc. intros Hf [= ->].
  induction f as [|c1 f IH]; simpl in *.
  - by destruct (c y x), (c x y).
  - apply andb_prop in Hf as [[Hxy Hyx]%andb_prop Hf].
    apply negb_true_iff in Hxy, Hyx. rewrite Hxy, Hyx. by apply IH.
Qed.

End chain_facts.

(** ** Insertion sort on lists *)

Section isort_facts.
Context {T : Type} (lt : T → T → bool).

Lemma insert_left_Permutation x rp : insert_left lt x rp ≡ₚ x :: rp.
Proof.
  induction rp as [|y rp IH]; simpl; [done|].
  destruct (lt x y); [|done]. rewrite IH. apply Permutation_swap.
Qed.

Lemma foldl_insert_left_Permutation rp l :
  foldl (λ rp x, insert_left lt x rp) rp l ≡ₚ rp ++ l.
Proof.
  revert rp. induction l as [|x l IH]; intros rp; simpl.
  - by rewrite app_nil_r.
  - rewrite IH, insert_left_Permutation. simpl. apply Permutation_middle.
Qed.

Lemma isort_Permutation l : isort lt l ≡ₚ l.
Proof.
  unfold isort. by rewrite reverse_Permutation, foldl_insert_left_Permutation.
Qed.

(** Stability: a class of mutually not-less elements keeps its order. *)
Section stable.
Context (P : T → Prop) `{∀ x, Decision (P x)}.
Hypothesis P_class : ∀ a b, P a → P b → lt a b = false.

Lemma insert_left_filter x rp :
  filter P (insert_left lt x rp) = filter P (x :: rp).
Proof.
  induction rp as [|y rp IH]; simpl; [done|].
  destruct (lt x y) eqn:Hxy; [|done].
  rewrite !filter_cons in *.
  destruct (decide (P x)) as [Hx|Hx]; destruct (decide (P y)) as [Hy|Hy];
    try by rewrite IH.
  by rewrite (P_class _ _ Hx Hy) in Hxy.
Qed.

Lemma foldl_insert_left_filter rp l :
  reverse (filter P (foldl (λ rp x, insert_left lt x rp) rp l))
  = reverse (filter P rp) ++ filter P l.
Proof.
  revert rp. induction l as [|x l IH]; intros rp; simpl.
  - by rewrite app_nil_r.
  - rewrite IH, insert_left_filter, !filter_cons.
    destruct (decide (P x)); [|done].
    by rewrite reverse_cons, <-app_assoc.
Qed.

Lemma isort_filter l : filter P (isort lt l) = filter P l.
Proof.
  unfold isort. rewrite filter_reverse.
  by rewrite foldl_insert_left_filter.
Qed.

End stable.

(** Sortedness, for a strict weak order. *)
Section sorted.
Hypothesis lt_asym : ∀ x y, lt x y = true → lt y x = false.
Hypothesis lt_negtrans : ∀ x y z, lt x y = false → lt y z = false → lt x z = false.

Lemma insert_left_sorted x rp :
  StronglySorted (λ a b, lt a b = false) rp →
  StronglySorted (λ a b, lt a b = false) (insert_left lt x rp).
Proof.
  induction 1 as [|y rp Hrp IH Hy]; simpl.
  - repeat constructor.
  - destruct (lt x y) eqn:Hxy.
    + constructor; [done|].
      rewrite Forall_forall in Hy |- *. intros z Hz.
      apply (elem_of_Permutation_proper _ _ _ (insert_left_Permutation x rp)) in Hz.
      apply elem_of_cons in Hz as [->|Hz]; [by apply lt_asym|by apply Hy].
    + constructor; [by constructor|].
      constructor; [done|].
      rewrite Forall_forall in Hy |- *. intros z Hz.
      eapply lt_negtrans; [done|by apply Hy].
Qed.

Lemma foldl_insert_left_sorted rp l :
  StronglySorted (λ a b, lt a b = false) rp →
  StronglySorted (λ a b, lt a b = false)
    (foldl (λ rp x, insert_left lt x rp) rp l).
Proof.
  revert rp. induction l as [|x l IH]; intros rp Hrp; simpl; [done|].
  by apply IH, insert_left_sorted.
Qed.

Lemma StronglySorted_reverse (R : T → T → Prop) l :
  StronglySorted R l → StronglySorted (flip R) (reverse l).
Proof.
  induction 1 as [|y l Hl IH Hy]; [constructor|].
  rewrite reverse_cons. apply StronglySorted_app_2; [|done|repeat constructor].
  intros x1 x2 Hx1 ->%list_elem_of_singleton. rewrite elem_of_reverse in Hx1.
  rewrite Forall_forall in Hy. unfold flip. by apply Hy.
Qed.

Lemma StronglySorted_lookup (R : T → T → Prop) l i j a b :
  StronglySorted R l → i < j → l !! i = Some a → l !! j = Some b → R a b.
Proof.
  intros Hl. revert i j. induction Hl as [|y l Hl IH Hy]; intros i j Hij Ha Hb.
  - done.
  - destruct j as [|j]; [lia|]. destruct i as [|i]; simpl in *.
    + simplify_eq. rewrite Forall_forall in Hy. apply Hy.
      by eapply list_elem_of_lookup_2.
    + apply (IH i j); [lia|done..].
Qed.

(** In the sorted slice no element is less than an element before it. *)
Lemma isort_sorted l i j a b :
  i < j → isort lt l !! i = Some a → isort lt l !! j = Some b →
  lt b a = false.
Proof.
  intros Hij Ha Hb.
  apply (StronglySorted_lookup (flip (λ a b, lt a b = false)) (isort lt l) i j);
    [|done..].
  apply StronglySorted_reverse, foldl_insert_left_sorted. constructor.
Qed.

End sorted.

End isort_facts.

(** ** Queries built by Join, Sort and MapTo *)

Section more_queries.
Context {T : Type} `{Countable T} (Nil : T).

Lemma Denotes_Join q inner (outKeySel innKeySel : T → T) resultSel lo li :
  Denotes Nil q lo → Denotes Nil inner li →
  Denotes Nil (Join Nil q inner outKeySel innKeySel resultSel)
    (joined outKeySel innKeySel resultSel lo li).
Proof.
  intros (up & Hup & Hlo) (inn & Hinn & Hli). unfold joined.
  pose (m := foldl (lut_add innKeySel) ∅ li).
  exists {| St := St up * joinState;
            st := (st up, {| j_outer := Nil; j_inner := []; j_i := 0; j_len := 0 |});
            next := join_next Nil (next up) m outKeySel resultSel |}.
  split.
  - unfold Join, join. simpl.
    apply (Returns_bind _ (λ up k, inn ← Iterate inner k;
                                   l ← makeLut inn innKeySel k; Ret _) up); [done|].
    apply (Returns_bind _ (λ inn k, l ← makeLut inn innKeySel k; Ret _) inn); [done|].
    apply (Returns_bind _ (λ l _, Ret _) m); [|apply Returns_const].
    unfold makeLut.
    by apply (makeLut_loop_yields Nil innKeySel (next inn) (st inn) li ∅).
  - simpl.
    replace (concat _) with (concat (map (rows m outKeySel resultSel) lo)).
    + apply join_next_yields; [|simpl; lia|done].
      intros key. unfold m. rewrite makeLut_lookup.
      by destruct (group innKeySel li key).
    + f_equal. apply map_ext. intros o. unfold rows, m.
      rewrite makeLut_lookup. by destruct (group innKeySel li (outKeySel o)).
Qed.

Lemma Denotes_Sort q (f : list (T → T → bool)) l :
  f ≠ [] → Denotes Nil q l →
  Denotes Nil (Sort Nil q f) (isort (chain_less f) l).
Proof.
  intros Hf Hq.
  exists {| St := nat; st := 0; next := from_next Nil (isort (chain_less f) l) |}.
  split; [|apply (from_next_yields Nil _ 0)].
  unfold Sort, sortBy. simpl.
  apply (Returns_bind _ (λ a _, a' ← by_Sort f a; Ret _) l);
    [by apply (Denotes_ToSlice Nil)|].
  rewrite by_Sort_isort by done. apply Returns_const.
Qed.

Lemma Panics_Sort_no_comparators q (x y : T) l :
  Denotes Nil q (x :: y :: l) → Panics (Iterate (Sort Nil q [])).
Proof.
  intros Hq. unfold Sort, sortBy. simpl.
  apply (Panics_bind _ (λ a _, a' ← by_Sort [] a; Ret _) (x :: y :: l));
    [by apply (Denotes_ToSlice Nil)|].
  by exists 0.
Qed.

Lemma mapTo_next_yields {U : Type} (nxt : nat → U → result (T * bool * U))
    (f : T → T) s l :
  Nil ∉ l → Yields Nil nxt s l →
  Yields Nil (mapTo_next Nil nxt f) s (map f l).
Proof.
  revert s. induction l as [|e l IH]; intros s Hnil; simpl.
  - intros Hs. apply (Exhausted_inv _ _ (Exhausted Nil nxt)); [done|].
    intros s0 Hs0. destruct (Exhausted_step _ _ _ Hs0) as (s1 & [k0 Hr] & Hs1).
    exists s1. split; [|done]. exists k0. intros k Hk.
    unfold mapTo_next. by rewrite Hr.
  - intros (s' & [k0 Hr] & Hl). apply not_elem_of_cons in Hnil as [Hne Hnil].
    exists s'. split; [|by apply IH]. exists k0. intros k Hk.
    unfold mapTo_next. rewrite Hr by done. simpl. by rewrite decide_False.
Qed.

Lemma Denotes_MapTo q (f : T → T) l :
  Nil ∉ l → Denotes Nil q l → Denotes Nil (MapTo Nil q f) (map f l).
Proof.
  intros Hnil (up & Hup & Hl). eexists. split.
  - apply (Returns_bind _ (λ up _, Ret _) up); [done|]. apply Returns_const.
  - simpl. by apply mapTo_next_yields.
Qed.

End more_queries.

(** ** Terminal operators *)

Section terminal_facts.
Context {T : Type} (Nil : T).

Section upstream.
Context {U : Type} (nxt : nat → U → result (T * bool * U)).

Lemma At_loop_yields c elem s l :
  Yields Nil nxt s l →
  Returns (λ k, At_loop nxt k c elem s)
    (match c with 0 => elem | S c' => default Nil (l !! c') end).
Proof.
  revert elem s l. induction c as [|c IH]; intros elem s l Hl; simpl.
  - apply Returns_const.
  - destruct l as [|e l].
    + destruct (Exhausted_step _ _ _ Hl) as (s' & [k0 Hr] & Hs').
      destruct (IH Nil s' [] Hs') as [k1 Hloop].
      exists (k0 `max` k1). intros k Hk. rewrite Hr by lia. simpl.
      rewrite Hloop by lia. by destruct c.
    + destruct Hl as (s' & [k0 Hr] & Hl).
      destruct (IH e s' l Hl) as [k1 Hloop].
      exists (k0 `max` k1). intros k Hk. rewrite Hr by lia. simpl.
      rewrite Hloop by lia. by destruct c.
Qed.

Lemma Last_loop_yields s l acc :
  Yields Nil nxt s l →
  Returns (λ k, Last_loop nxt k s acc) (default acc (last l)).
Proof.
  revert s acc. induction l as [|e l IH]; intros s acc; simpl.
  - intros Hs. destruct (Exhausted_step _ _ _ Hs) as (s' & [k0 Hr] & _).
    fuel_step k0. by rewrite Hr by lia.
  - intros (s' & [k1 Hr] & Hl). destruct (IH s' e Hl) as [k2 Hloop].
    fuel_step (k1 `max` k2). rewrite Hr by lia. simpl.
    rewrite Hloop by lia. rewrite last_cons. by destruct (last l).
Qed.

Lemma Reduce_loop_yields (f : T → T → T) s l v :
  Yields Nil nxt s l →
  Returns (λ k, Reduce_loop nxt f k s v) (foldl f v l).
Proof.
  revert s v. induction l as [|e l IH]; intros s v; simpl.
  - intros Hs. destruct (Exhausted_step _ _ _ Hs) as (s' & [k0 Hr] & _).
    fuel_step k0. by rewrite Hr by lia.
  - intros (s' & [k1 Hr] & Hl). destruct (IH s' (f v e) Hl) as [k2 Hloop].
    fuel_step (k1 `max` k2). rewrite Hr by lia. simpl. apply Hloop. lia.
Qed.

End upstream.

Lemma Returns_At q (i : Z) l :
  (0 ≤ i)%Z → Denotes Nil q l →
  Returns (At Nil q i) (default Nil (l !! Z.to_nat i)).
Proof.
  intros Hi (it & Hit & Hl). unfold At.
  rewrite bool_decide_eq_false_2 by lia.
  apply (Returns_bind _ (λ it k, At_loop (next it) k _ Nil (st it)) it); [done|].
  replace (Z.to_nat (i + 1)) with (S (Z.to_nat i)) by lia.
  by apply (At_loop_yields _ (S (Z.to_nat i))).
Qed.

Lemma Returns_At_negative q (i : Z) : (i < 0)%Z → Returns (At Nil q i) Nil.
Proof.
  intros Hi. exists 0. intros k _. unfold At.
  by rewrite bool_decide_eq_true_2.
Qed.

Lemma Returns_First q l :
  Denotes Nil q l → Returns (First q) (default Nil (head l)).
Proof.
  intros (it & Hit & Hl). unfold First.
  apply (Returns_bind _ (λ it k, '(first, _, _) ← next it k (st it); Ret first) it);
    [done|].
  destruct l as [|e l]; simpl.
  - destruct (Exhausted_step _ _ _ Hl) as (s' & [k0 Hr] & _).
    exists k0. intros k Hk. by rewrite Hr.
  - destruct Hl as (s' & [k0 Hr] & _). exists k0. intros k Hk. by rewrite Hr.
Qed.

Lemma Returns_Last q l :
  Denotes Nil q l → Returns (Last Nil q) (default Nil (last l)).
Proof.
  intros (it & Hit & Hl). unfold Last.
  apply (Returns_bind _ (λ it k, Last_loop (next it) k (st it) Nil) it); [done|].
  by apply Last_loop_yields.
Qed.

Lemma Returns_Reduce q (f : T → T → T) l :
  Denotes Nil q l →
  Returns (Reduce Nil q f) (match l with [] => Nil | v :: l' => foldl f v l' end).
Proof.
  intros (it & Hit & Hl). unfold Reduce.
  apply (Returns_bind _
           (λ it k, '(v, ok, s') ← next it k (st it);
                    if ok : bool then Reduce_loop (next it) f k s' v else Ret Nil)
           it); [done|].
  destruct l as [|e l]; simpl.
  - destruct (Exhausted_step _ _ _ Hl) as (s' & [k0 Hr] & _).
    exists k0. intros k Hk. by rewrite Hr.
  - destruct Hl as (s' & [k0 Hr] & Hl).
    destruct (Reduce_loop_yields (next it) f s' l e Hl) as [k1 Hloop].
    exists (k0 `max` k1). intros k Hk. rewrite Hr by lia. simpl.
    apply Hloop. lia.
Qed.

End terminal_facts.

(** ** The closures on the store *)

Section store_cells.
Context {A : Type}.
Implicit Types pre r post : list A.

Lemma lookup_cell pre r (c : A) post lo len :
  length pre = lo → length r = len →
  (pre ++ r ++ c :: post) !! (lo + len) = Some c.
Proof.
  intros <- <-. rewrite app_assoc, <-length_app. apply list_lookup_middle. done.
Qed.

Lemma insert_cell pre r (c c' : A) post lo len :
  length pre = lo → length r = len →
  <[lo + len := c']> (pre ++ r ++ c :: post) = pre ++ r ++ c' :: post.
Proof.
  intros <- <-. rewrite !app_assoc, <-length_app.
  rewrite insert_app_r_alt by lia. by rewrite Nat.sub_diag.
Qed.

Lemma lookup_own pre (c : A) post lo :
  length pre = lo → (pre ++ c :: post) !! lo = Some c.
Proof. intros <-. by apply list_lookup_middle. Qed.

Lemma insert_own pre (c c' : A) post lo :
  length pre = lo → <[lo := c']> (pre ++ c :: post) = pre ++ c' :: post.
Proof.
  intros <-. rewrite insert_app_r_alt by lia. by rewrite Nat.sub_diag.
Qed.

Lemma cells_assoc pre r (c : A) post :
  pre ++ (r ++ [c]) ++ post = pre ++ r ++ c :: post.
Proof. by rewrite <-app_assoc. Qed.

Lemma lookup_source (σ0 : list A) pre rest a c :
  σ0 `prefix_of` pre → σ0 !! a = Some c → (pre ++ rest) !! a = Some c.
Proof.
  intros [w ->] Ha. rewrite <-app_assoc. by apply lookup_app_l_Some.
Qed.

End store_cells.

Section store_facts.
Context {T : Type} `{Countable T} (Nil : T).
Local Abbreviation store := (list (@Store.cell T)).
Local Abbreviation CInt := (Store.CInt (T:=T)).
Local Abbreviation CSlice := (Store.CSlice (T:=T)).
Local Abbreviation CExp := (Store.CExp (T:=T)).
Local Abbreviation CJoin := (Store.CJoin (T:=T)).
Implicit Types σ pre post g : store.

(** The closure of [from] on a store that holds the slice at [a] and the
    value [n] of [i] at [i]. *)
Lemma from_next_store σ a i (l : list T) (n : nat) k :
  σ !! a = Some (CSlice l) → σ !! i = Some (CInt (Z.of_nat n)) →
  Store.from_next Nil a i k σ =
    match from_next Nil l k n with
    | Ret (e, ok, n') => Ret (e, ok, <[i := CInt (Z.of_nat n')]> σ)
    | Panic => Panic
    | Timeout => Timeout
    end.
Proof.
  intros Ha Hi. unfold Store.from_next, Store.load_slice, Store.load_int, from_next.
  rewrite Ha, Hi. simpl.
  destruct (decide (n < length l)) as [Hn|Hn].
  - rewrite !bool_decide_eq_true_2 by lia.
    unfold Store.index_int. rewrite bool_decide_eq_false_2 by lia.
    rewrite Nat2Z.id. destruct (index l n); simpl; [|done..].
    by rewrite Nat2Z.inj_succ.
  - rewrite !bool_decide_eq_false_2 by lia. simpl. by rewrite list_insert_id.
Qed.

Lemma Sim_from σ0 a (l : list T) lo :
  σ0 !! a = Some (CSlice l) →
  Sim σ0 lo (Store.from_next Nil a lo) (from_next Nil l)
    (λ i, [CInt (Z.of_nat i)]) 1.
Proof.
  intros Ha. split; [done|]. intros k i pre post Hpre Hlo.
  rewrite (from_next_store _ a lo l i).
  - destruct (from_next Nil l k i) as [[[e ok] i']| |]; [|done..].
    simpl. by rewrite insert_own.
  - by apply (lookup_source σ0).
  - simpl. by apply lookup_own.
Qed.

Lemma Sim_from_own σ0 lo g (a : list T) :
  Sim σ0 lo (Store.from_next Nil (lo + length g) (S (lo + length g)))
    (from_next Nil a) (λ i, g ++ [CSlice a; CInt (Z.of_nat i)]) (length g + 2).
Proof.
  split; [intros i; by rewrite length_app|].
  intros k i pre post Hpre Hlo. rewrite <-!app_assoc. simpl.
  rewrite (from_next_store _ (lo + length g) (S (lo + length g)) a i).
  - destruct (from_next Nil a k i) as [[[e ok] i']| |]; [|done..].
    do 3 f_equal.
    rewrite (app_assoc pre g), insert_app_r_alt; rewrite length_app; [|lia].
    replace (S (lo + length g) - (length pre + length g)) with 1 by lia.
    simpl. by rewrite <-!app_assoc.
  - by apply lookup_cell.
  - rewrite (app_assoc pre g), lookup_app_r; rewrite length_app; [|lia].
    by replace (S (lo + length g) - (length pre + length g)) with 1 by lia.
Qed.

Section upstream.
Context {U : Type} (σ0 : store) (lo : nat) (it : @Store.Iterator T).
Context (nxt : nat → U → result (T * bool * U)) (rep : U → store) (len : nat).
Hypothesis up : Sim σ0 lo it nxt rep len.

(** Cells allocated after those of the closure and never written by it
    may be counted with its variables. *)
Lemma Sim_pad g : Sim σ0 lo it nxt (λ u, rep u ++ g) (len + length g).
Proof.
  destruct up as [Hlen Hsim]. split.
  - intros u. by rewrite length_app, Hlen.
  - intros k u pre post Hpre Hlo. rewrite <-app_assoc, Hsim by done.
    destruct (nxt k u) as [[[e ok] u']| |]; [|done..].
    by rewrite <-app_assoc.
Qed.

Lemma Sim_where f :
  Sim σ0 lo (Store.where_next it f) (where_next nxt f) rep len.
Proof.
  destruct up as [Hlen Hsim]. split; [done|].
  induction k as [|k IH]; intros u pre post Hpre Hlo; simpl; [done|].
  rewrite Hsim by done.
  destruct (nxt k u) as [[[e ok] u']| |]; simpl; [|done..].
  destruct ok; [|done]. destruct (all_hold f e); [done|]. by apply IH.
Qed.

Lemma Sim_mapTo f :
  Sim σ0 lo (Store.mapTo_next Nil it f) (mapTo_next Nil nxt f) rep len.
Proof.
  destruct up as [Hlen Hsim]. split; [done|].
  intros k u pre post Hpre Hlo. unfold Store.mapTo_next, mapTo_next.
  rewrite Hsim by done.
  destruct (nxt k u) as [[[e ok] u']| |]; simpl; [|done..].
  destruct ok; [|done]. by destruct (decide (e = Nil)).
Qed.

Lemma Sim_take :
  Sim σ0 lo (Store.take_next Nil it (lo + len)) (take_next Nil nxt)
    (λ un, rep un.1 ++ [CInt un.2]) (len + 1).
Proof.
  destruct up as [Hlen Hsim]. split.
  - intros un. by rewrite length_app, Hlen.
  - intros k [u n] pre post Hpre Hlo. simpl. rewrite cells_assoc.
    unfold Store.take_next, Store.load_int.
    rewrite lookup_cell by done. simpl.
    destruct (bool_decide (n ≤ 0)%Z); [by rewrite cells_assoc|].
    rewrite insert_cell, Hsim by done.
    destruct (nxt k u) as [[[e ok] u']| |]; simpl; [|done..].
    by rewrite cells_assoc.
Qed.

Lemma skip_loop_store k c u pre post :
  σ0 `prefix_of` pre → length pre = lo →
  Store.skip_loop it (lo + len) k c (pre ++ rep u ++ CInt (Z.of_nat c) :: post) =
    match skip_loop nxt k c u with
    | Ret (ran, u', c') => Ret (ran, pre ++ rep u' ++ CInt (Z.of_nat c') :: post)
    | Panic => Panic
    | Timeout => Timeout
    end.
Proof.
  destruct up as [Hlen Hsim]. intros Hpre Hlo. revert u.
  induction c as [|c IH]; intros u; simpl; [done|].
  rewrite Hsim by done.
  destruct (nxt k u) as [[[e ok] u']| |]; simpl; [|done..].
  destruct ok; [|done]. rewrite insert_cell by done. apply IH.
Qed.

Lemma Sim_skip :
  Sim σ0 lo (Store.skip_next Nil it (lo + len)) (skip_next Nil nxt)
    (λ un, rep un.1 ++ [CInt un.2]) (len + 1).
Proof.
  pose proof skip_loop_store as Hloop.
  destruct up as [Hlen Hsim]. split.
  - intros un. by rewrite length_app, Hlen.
  - intros k [u n] pre post Hpre Hlo. simpl. rewrite cells_assoc.
    unfold Store.skip_next, Store.load_int.
    rewrite lookup_cell by done. simpl.
    destruct (decide (n < 0)%Z) as [Hn|Hn].
    + rewrite !bool_decide_eq_true_2 by done. by rewrite cells_assoc.
    + rewrite !bool_decide_eq_false_2 by done.
      replace (CInt n) with (CInt (Z.of_nat (Z.to_nat n)))
        by (by rewrite Z2Nat.id by lia).
      rewrite Hloop by done.
      destruct (skip_loop nxt k (Z.to_nat n) u) as [[[ran u'] c']| |];
        simpl; [|done..].
      destruct ran; [|by rewrite cells_assoc].
      rewrite Hsim by done.
      destruct (nxt k u') as [[[e ok] u'']| |]; simpl; [|done..].
      by rewrite cells_assoc.
Qed.

Lemma Sim_expand f :
  Sim σ0 lo (Store.expand_next Nil it f (lo + len)) (expand_next Nil nxt f)
    (λ us, rep us.1 ++ [CExp us.2]) (len + 1).
Proof.
  destruct up as [Hlen Hsim]. split.
  - intros us. by rewrite length_app, Hlen.
  - induction k as [|k IH]; intros [u v] pre post Hpre Hlo; [done|].
    specialize (λ u v, IH (u, v) pre post Hpre Hlo). simpl in IH.
    simpl. rewrite cells_assoc. unfold Store.load_exp.
    rewrite lookup_cell by done. simpl.
    destruct (bool_decide (e_len v ≤ e_i v)).
    + rewrite Hsim by done.
      destruct (nxt k u) as [[[e ok] u']| |]; simpl; [|done..].
      destruct ok.
      * rewrite insert_cell by done. simpl.
        destruct (bool_decide (0 < length (f e))).
        -- destruct (index (f e) 0); simpl; [|done..].
           by rewrite insert_cell, cells_assoc.
        -- rewrite <-cells_assoc. apply IH.
      * rewrite lookup_cell by done. simpl.
        by rewrite insert_cell, cells_assoc.
    + destruct (bool_decide (e_i v < e_len v)).
      * destruct (index (e_inner v) (e_i v)); simpl; [|done..].
        by rewrite insert_cell, cells_assoc.
      * rewrite <-cells_assoc. apply IH.
Qed.

Lemma join_seek_store l outKeySel k u v pre post :
  σ0 `prefix_of` pre → length pre = lo →
  Store.join_seek it l outKeySel (lo + len) k (pre ++ rep u ++ CJoin v :: post) =
    match join_seek nxt l outKeySel k u v with
    | Ret (ok, u', v') => Ret (ok, pre ++ rep u' ++ CJoin v' :: post)
    | Panic => Panic
    | Timeout => Timeout
    end.
Proof.
  destruct up as [Hlen Hsim]. intros Hpre Hlo. revert u v.
  induction k as [|k IH]; intros u v; simpl; [done|].
  rewrite Hsim by done.
  destruct (nxt k u) as [[[e ok] u']| |]; simpl; [|done..].
  destruct ok.
  - destruct (l !! outKeySel e); rewrite insert_cell by done; [done|]. apply IH.
  - unfold Store.load_join. rewrite lookup_cell by done. simpl.
    by rewrite insert_cell.
Qed.

Lemma Sim_join l outKeySel resultSel :
  Sim σ0 lo (Store.join_next Nil it l outKeySel resultSel (lo + len))
    (join_next Nil nxt l outKeySel resultSel)
    (λ us, rep us.1 ++ [CJoin us.2]) (len + 1).
Proof.
  pose proof (join_seek_store l outKeySel) as Hseek.
  destruct up as [Hlen Hsim]. split.
  - intros us. by rewrite length_app, Hlen.
  - intros k [u v] pre post Hpre Hlo. simpl. rewrite cells_assoc.
    unfold Store.join_next, Store.load_join.
    rewrite lookup_cell by done. simpl.
    destruct (bool_decide (j_len v ≤ j_i v)).
    + rewrite Hseek by done.
      destruct (join_seek nxt l outKeySel k u v) as [[[ok u'] v']| |];
        simpl; [|done..].
      destruct ok; [|by rewrite cells_assoc].
      rewrite lookup_cell by done. simpl.
      destruct (index (j_inner v') (j_i v')); simpl; [|done..].
      by rewrite insert_cell, cells_assoc.
    + simpl. rewrite lookup_cell by done. simpl.
      destruct (index (j_inner v) (j_i v)); simpl; [|done..].
      by rewrite insert_cell, cells_assoc.
Qed.

(** Draining the closure leaves the store as it was except for the cells
    of its variables. *)
Lemma ToSlice_loop_store u l acc pre post :
  σ0 `prefix_of` pre → length pre = lo →
  Yields Nil nxt u l →
  ∃ u', Returns (λ k, Store.ToSlice_loop it k (pre ++ rep u ++ post) acc)
          (acc ++ l, pre ++ rep u' ++ post).
Proof.
  destruct up as [Hlen Hsim]. intros Hpre Hlo.
  revert u acc. induction l as [|e l IH]; intros u acc; simpl.
  - intros Hu. destruct (Exhausted_step _ _ _ Hu) as (u' & [k0 Hr] & _).
    exists u'. exists (S k0). intros [|k] Hk; [lia|].
    cbn [Store.ToSlice_loop]. rewrite Hsim, Hr by (done || lia). simpl.
    by rewrite app_nil_r.
  - intros (u1 & [k1 Hr] & Hl).
    destruct (IH u1 (acc ++ [e]) Hl) as (u' & [k2 Hloop]).
    exists u'. exists (S (k1 `max` k2)). intros [|k] Hk; [lia|].
    cbn [Store.ToSlice_loop]. rewrite Hsim, Hr by (done || lia). simpl.
    rewrite Hloop by lia. by rewrite <-app_assoc.
Qed.

Lemma makeLut_loop_store f u li m pre post :
  σ0 `prefix_of` pre → length pre = lo →
  Yields Nil nxt u li →
  ∃ u', Returns (λ k, Store.makeLut_loop it f k (pre ++ rep u ++ post) m)
          (foldl (lut_add f) m li, pre ++ rep u' ++ post).
Proof.
  destruct up as [Hlen Hsim]. intros Hpre Hlo.
  revert u m. induction li as [|e li IH]; intros u m; simpl.
  - intros Hu. destruct (Exhausted_step _ _ _ Hu) as (u' & [k0 Hr] & _).
    exists u'. exists (S k0). intros [|k] Hk; [lia|].
    cbn [Store.makeLut_loop]. by rewrite Hsim, Hr by (done || lia).
  - intros (u1 & [k1 Hr] & Hl).
    destruct (IH u1 (lut_add f m e) Hl) as (u' & [k2 Hloop]).
    exists u'. exists (S (k1 `max` k2)). intros [|k] Hk; [lia|].
    cbn [Store.makeLut_loop]. rewrite Hsim, Hr by (done || lia). simpl.
    apply Hloop. lia.
Qed.

End upstream.

(** Wherever in the store the iterator of a query is created, it is a
    closure over cells of its own, allocated by the call, with the stream
    of the query. *)
Lemma Built_Sim σ0 q l :
  Store.Built Nil σ0 q l →
  ∀ pre, σ0 `prefix_of` pre →
    ∃ (U : Type) (nxt : nat → U → result (T * bool * U)) (rep : U → store)
      (len : nat) (u0 : U) (it : Store.Iterator),
      Returns (λ k, Store.Iterate q k pre) (it, pre ++ rep u0) ∧
      Sim σ0 (length pre) it nxt rep len ∧
      Yields Nil nxt u0 l.
Proof.
  induction 1 as [a l Ha|q f l _ IH|q f l _ IH Hnil|q f l _ IH|q n l _ IH
                  |q n l _ IH|q inner oks iks rs lo li _ IHo _ IHi
                  |q f l _ IH Hf _|q l _ IH Hshort]; intros pre Hpre.
  - exists nat, (from_next Nil l), (λ i, [CInt (Z.of_nat i)]), 1, 0,
      (Store.from_next Nil a (length pre)).
    split; [apply Returns_const|]. split; [by apply Sim_from|].
    apply (from_next_yields Nil l 0).
  - destruct (IH pre Hpre) as (U & nxt & rep & len & u0 & it & [k0 Hr] & Hsim & Hl).
    exists U, (where_next nxt f), rep, len, u0, (Store.where_next it f).
    split; [|split; [by apply Sim_where|by apply where_next_yields]].
    exists k0. intros k Hk. simpl. unfold Store.where_. by rewrite Hr.
  - destruct (IH pre Hpre) as (U & nxt & rep & len & u0 & it & [k0 Hr] & Hsim & Hl).
    exists U, (mapTo_next Nil nxt f), rep, len, u0, (Store.mapTo_next Nil it f).
    split; [|split; [by apply Sim_mapTo|by apply mapTo_next_yields]].
    exists k0. intros k Hk. simpl. unfold Store.mapTo. by rewrite Hr.
  - destruct (IH pre Hpre) as (U & nxt & rep & len & u0 & it & [k0 Hr] & Hsim & Hl).
    exists (U * expState)%type, (expand_next Nil nxt f),
      (λ us, rep us.1 ++ [CExp us.2]), (len + 1),
      (u0, {| e_outer := Nil; e_inner := []; e_i := 0; e_len := 0 |}),
      (Store.expand_next Nil it f (length pre + len)).
    split; [|split; [by apply Sim_expand|]].
    + exists k0. intros k Hk. simpl. unfold Store.expand. rewrite Hr by done.
      simpl. rewrite length_app, (proj1 Hsim). by rewrite <-app_assoc.
    + apply expand_next_yields; [simpl; lia|done].
  - destruct (IH pre Hpre) as (U & nxt & rep & len & u0 & it & [k0 Hr] & Hsim & Hl).
    exists (U * Z)%type, (skip_next Nil nxt),
      (λ un, rep un.1 ++ [CInt un.2]), (len + 1), (u0, n),
      (Store.skip_next Nil it (length pre + len)).
    split; [|split; [by apply Sim_skip|]].
    + exists k0. intros k Hk. simpl. unfold Store.skip. rewrite Hr by done.
      simpl. rewrite length_app, (proj1 Hsim). by rewrite <-app_assoc.
    + destruct (decide (n < 0)%Z) as [Hn|Hn].
      * rewrite bool_decide_eq_true_2 by done. by apply skip_next_negative.
      * rewrite bool_decide_eq_false_2 by done. apply skip_next_yields; [lia|done].
  - destruct (IH pre Hpre) as (U & nxt & rep & len & u0 & it & [k0 Hr] & Hsim & Hl).
    exists (U * Z)%type, (take_next Nil nxt),
      (λ un, rep un.1 ++ [CInt un.2]), (len + 1), (u0, n),
      (Store.take_next Nil it (length pre + len)).
    split; [|split; [by apply Sim_take|by apply take_next_yields]].
    exists k0. intros k Hk. simpl. unfold Store.take_. rewrite Hr by done.
    simpl. rewrite length_app, (proj1 Hsim). by rewrite <-app_assoc.
  - destruct (IHo pre Hpre)
      as (U1 & nxt1 & rep1 & len1 & u1 & it1 & [k1 Hr1] & Hsim1 & Hlo).
    destruct (IHi (pre ++ rep1 u1) (prefix_app_r _ _ _ Hpre))
      as (U2 & nxt2 & rep2 & len2 & u2 & it2 & [k2 Hr2] & Hsim2 & Hli).
    destruct (makeLut_loop_store _ _ _ _ _ _ Hsim2 iks u2 li ∅ (pre ++ rep1 u1) []
                (prefix_app_r _ _ _ Hpre) eq_refl Hli) as (u2' & [k3 Hr3]).
    rewrite !app_nil_r in Hr3.
    pose (m := foldl (lut_add iks) ∅ li).
    exists (U1 * joinState)%type, (join_next Nil nxt1 m oks rs),
      (λ us, (rep1 us.1 ++ rep2 u2') ++ [CJoin us.2]), (len1 + length (rep2 u2') + 1),
      (u1, {| j_outer := Nil; j_inner := []; j_i := 0; j_len := 0 |}),
      (Store.join_next Nil it1 m oks rs (length pre + (len1 + length (rep2 u2')))).
    split; [|split].
    + exists ((k1 `max` k2) `max` k3). intros k Hk. simpl. unfold Store.join.
      rewrite Hr1 by lia. simpl. rewrite Hr2 by lia. simpl.
      unfold Store.makeLut. rewrite Hr3 by lia. simpl.
      rewrite !length_app, (proj1 Hsim1). by rewrite <-!app_assoc, Nat.add_assoc.
    + apply (Sim_join _ _ _ _ _ _ (Sim_pad _ _ _ _ _ _ Hsim1 (rep2 u2'))).
    + unfold joined.
      replace (concat _) with (concat (map (rows m oks rs) lo)).
      * apply join_next_yields; [|simpl; lia|done].
        intros key. unfold m. rewrite makeLut_lookup.
        by destruct (group iks li key).
      * f_equal. apply map_ext. intros o. unfold rows, m.
        rewrite makeLut_lookup. by destruct (group iks li (oks o)).
  - destruct (IH pre Hpre) as (U & nxt & rep & len & u0 & it & [k0 Hr] & Hsim & Hl).
    destruct (ToSlice_loop_store _ _ _ _ _ _ Hsim u0 l [] pre [] Hpre eq_refl Hl)
      as (u' & [k1 Hr1]).
    rewrite !app_nil_r in Hr1. simpl in Hr1.
    exists nat, (from_next Nil (isort (chain_less f) l)),
      (λ i, rep u' ++ [CSlice (isort (chain_less f) l); CInt (Z.of_nat i)]),
      (length (rep u') + 2), 0,
      (Store.from_next Nil (length pre + length (rep u'))
         (S (length pre + length (rep u')))).
    split; [|split; [apply Sim_from_own|apply (from_next_yields Nil _ 0)]].
    exists (k0 `max` k1). intros k Hk. simpl. unfold Store.sortBy, Store.ToSlice.
    rewrite Hr by lia. simpl. rewrite Hr1 by lia. simpl.
    rewrite by_Sort_isort by done. simpl.
    by rewrite length_app, <-app_assoc.
  - destruct (IH pre Hpre) as (U & nxt & rep & len & u0 & it & [k0 Hr] & Hsim & Hl).
    destruct (ToSlice_loop_store _ _ _ _ _ _ Hsim u0 l [] pre [] Hpre eq_refl Hl)
      as (u' & [k1 Hr1]).
    rewrite !app_nil_r in Hr1. simpl in Hr1.
    exists nat, (from_next Nil l),
      (λ i, rep u' ++ [CSlice l; CInt (Z.of_nat i)]), (length (rep u') + 2), 0,
      (Store.from_next Nil (length pre + length (rep u'))
         (S (length pre + length (rep u')))).
    split; [|split; [apply Sim_from_own|apply (from_next_yields Nil _ 0)]].
    exists (k0 `max` k1). intros k Hk. simpl. unfold Store.sortBy, Store.ToSlice.
    rewrite Hr by lia. simpl. rewrite Hr1 by lia. simpl.
    rewrite by_Sort_empty_chain_short by done. simpl.
    by rewrite length_app, <-app_assoc.
Qed.

End store_facts.

(** ** Properties of the query operators *)

Section properties.
Context {T : Type} `{Countable T} (Nil : T).

(** C1.  The output of [Join] is, in outer order, for each outer element
    the rows [resultSel outer inner] of the inner elements with the same
    key, in the order of the inner sequence.  Its length is the sum over
    the outer elements of the sizes of their matching groups, and an outer
    element whose key no inner element has gets the empty group and so
    contributes no row. *)
Theorem Join_rows (outer inner : Query) (outKeySel innKeySel : T → T)
    (resultSel : T → T → T) (lo li : list T) :
  Denotes Nil outer lo → Denotes Nil inner li →
  Returns (ToSlice (Join Nil outer inner outKeySel innKeySel resultSel))
    (joined outKeySel innKeySel resultSel lo li) ∧
  joined outKeySel innKeySel resultSel lo li
    = concat (map (λ o, map (resultSel o)
                          (filter (λ i, innKeySel i = outKeySel o) li)) lo) ∧
  length (joined outKeySel innKeySel resultSel lo li)
    = list_sum (map (λ o, length (filter (λ i, innKeySel i = outKeySel o) li)) lo) ∧
  (∀ o, (∀ i, i ∈ li → innKeySel i ≠ outKeySel o) →
        filter (λ i, innKeySel i = outKeySel o) li = []).
Proof.
  intros Hlo Hli. split; [|split; [|split]].
  - by apply (Denotes_ToSlice Nil), Denotes_Join.
  - done.
  - unfold joined, group. rewrite length_concat, map_map. f_equal.
    apply map_ext. intros o. by rewrite length_map.
  - intros o Ho. clear Hli. induction li as [|i li' IH]; [done|].
    rewrite filter_cons. destruct (decide (innKeySel i = outKeySel o)) as [He|_].
    + destruct (Ho i); [left|done].
    + apply IH. intros i' Hi'. apply Ho. by right.
Qed.

(** C2.  On a sequence of at least two elements [Sort] with no comparator
    does not return the elements in their order: the first comparison of
    the sort indexes the empty comparator list and panics.  (On at most
    one element no comparison is made and the sequence is returned.) *)
Theorem Sort_no_comparators_panics :
  Panics (ToSlice (Sort VNil (From VNil [VInt 1; VInt 2]) [])).
Proof.
  apply (Panics_bind_l (Iterate _) (λ it k, ToSlice_loop (next it) k (st it) [])).
  apply (Panics_Sort_no_comparators VNil _ (VInt 1) (VInt 2) []).
  apply Denotes_From.
Qed.

(** C3, amended.  For a count [n >= 0], [Take] yields the first
    [min n |s|] elements of [s], [Skip] yields the remaining ones, and the
    two outputs concatenated are [s]. *)
Theorem Take_Skip_partition (q : Query) (n : Z) (l : list T) :
  Denotes Nil q l → (0 ≤ n)%Z →
  Returns (ToSlice (Take Nil q n)) (take (Z.to_nat n) l) ∧
  Returns (ToSlice (Skip Nil q n)) (drop (Z.to_nat n) l) ∧
  take (Z.to_nat n) l ++ drop (Z.to_nat n) l = l ∧
  length (take (Z.to_nat n) l) = Z.to_nat n `min` length l.
Proof.
  intros Hq Hn. split; [|split; [|split]].
  - by apply (Denotes_ToSlice Nil), Denotes_Take.
  - by apply (Denotes_ToSlice Nil), Denotes_Skip.
  - apply take_drop.
  - apply length_take.
Qed.

(** C4.  [Where] emits exactly the elements that satisfy every predicate,
    in their order: the output is a sublist of the input, an element is in
    the output iff it is in the input and passes all predicates, and with
    no predicate the output is the input. *)
Theorem Where_filter (q : Query) (p : list (T → bool)) (l : list T) :
  Denotes Nil q l →
  Returns (ToSlice (Where q p)) (filter (λ e, forallb (λ pk, pk e) p = true) l) ∧
  filter (λ e, forallb (λ pk, pk e) p = true) l `sublist_of` l ∧
  (∀ e, e ∈ filter (λ e, forallb (λ pk, pk e) p = true) l
        ↔ e ∈ l ∧ ∀ pk, pk ∈ p → pk e = true) ∧
  Returns (ToSlice (Where q [])) l.
Proof.
  intros Hq.
  assert (∀ p, Returns (ToSlice (Where q p))
                 (filter (λ e, forallb (λ pk, pk e) p = true) l)) as Hall.
  { intros p'. apply (Denotes_ToSlice Nil).
    rewrite (list_filter_iff _ (λ e, all_hold p' e = true));
      [by apply Denotes_Where|].
    intros e. by rewrite all_hold_forallb. }
  split; [|split; [|split]].
  - apply Hall.
  - apply sublist_filter.
  - intros e. rewrite list_elem_of_filter, forallb_forall.
    setoid_rewrite <-list_elem_of_In. tauto.
  - specialize (Hall []). simpl in Hall.
    replace (filter (λ _ : T, true = true) l) with l in Hall; [done|].
    clear. induction l as [|e l IH]; [done|].
    by rewrite filter_cons_True, <-IH.
Qed.

(** C6.  The output of [Expand] is the concatenation, in upstream order,
    of the lists [f] returns; expanding every element into the one-element
    list of itself gives the input. *)
Theorem Expand_concat (q : Query) (f : T → list T) (l : list T) :
  Denotes Nil q l →
  Returns (ToSlice (Expand Nil q f)) (concat (map f l)) ∧
  Returns (ToSlice (Expand Nil q (λ x, [x]))) l.
Proof.
  intros Hq. split.
  - by apply (Denotes_ToSlice Nil), Denotes_Expand.
  - pose proof (Denotes_ToSlice Nil _ _ (Denotes_Expand Nil q (λ x, [x]) l Hq))
      as Hid.
    replace (concat (map (λ x, [x]) l)) with l in Hid; [done|].
    clear. induction l as [|e l IH]; simpl; by rewrite <-?IH.
Qed.

(** C7.  [Skip] with a negative count and [Take] with a count that is not
    positive yield the empty sequence, whatever the upstream sequence. *)
Theorem Skip_Take_empty (q : Query) (it : Iterator) (n m : Z) :
  Returns (Iterate q) it → (n < 0)%Z → (m ≤ 0)%Z →
  Returns (ToSlice (Skip Nil q n)) [] ∧ Returns (ToSlice (Take Nil q m)) [].
Proof.
  intros Hit Hn Hm. split; apply (Denotes_ToSlice Nil).
  - by eapply Denotes_Skip_negative.
  - by eapply Denotes_Take_nonpositive.
Qed.

(** C8.  [At] with an index that is negative or not below the length of
    the sequence returns nil, and so do [First], [Last] and [Reduce] on an
    empty sequence; none of them panics. *)
Theorem absent_value (q q0 : Query) (l : list T) (i : Z) (f : T → T → T) :
  Denotes Nil q l → Denotes Nil q0 [] →
  (i < 0 ∨ Z.of_nat (length l) ≤ i)%Z →
  (Returns (At Nil q i) Nil ∧ Returns (First q0) Nil ∧
   Returns (Last Nil q0) Nil ∧ Returns (Reduce Nil q0 f) Nil) ∧
  ¬ (Panics (At Nil q i) ∨ Panics (First q0) ∨
     Panics (Last Nil q0) ∨ Panics (Reduce Nil q0 f)).
Proof.
  intros Hq Hq0 Hi.
  assert (Returns (At Nil q i) Nil) as HAt.
  { destruct (decide (i < 0)%Z) as [Hneg|Hpos]; [by apply Returns_At_negative|].
    pose proof (Returns_At Nil q i l ltac:(lia) Hq) as Hr.
    by rewrite lookup_ge_None_2 in Hr by lia. }
  pose proof (Returns_First Nil q0 [] Hq0) as HFirst.
  pose proof (Returns_Last Nil q0 [] Hq0) as HLast.
  pose proof (Returns_Reduce Nil q0 f [] Hq0) as HReduce.
  split; [done|].
  intros [Hp|[Hp|[Hp|Hp]]]; revert Hp; by eapply Returns_not_Panics.
Qed.


(** C10.  [q.At(0)] and [q.First()] are the same computation: they return
    the same value, nil on an empty sequence included. *)
Theorem At_0_First (q : Query) (fuel : nat) : At Nil q 0 fuel = First q fuel.
Proof.
  unfold At, First. simpl. destruct (Iterate q fuel) as [it| |]; simpl; [|done..].
  by destruct (next it fuel (st it)) as [[[e ok] s']| |].
Qed.

(** C5, amended.  For a non-empty chain of comparators that are strict
    weak orders, the output of [Sort] is a permutation of the input in which
    two elements that tie under every comparator except the last are never
    in the order the last comparator forbids, and in which the elements
    that tie with a given element under every comparator keep their
    original order. *)
Theorem Sort_stable (q : Query) (f : list (T → T → bool)) (l : list T) :
  f ≠ [] → Forall StrictWeak f → Denotes Nil q l →
  ∃ out,
    Returns (ToSlice (Sort Nil q f)) out ∧
    out ≡ₚ l ∧
    (∀ c i j x y,
        last f = Some c → i < j → out !! i = Some x → out !! j = Some y →
        tied_front f x y = true → c y x = false) ∧
    (∀ z, filter (λ e, tied_all f z e = true) out
          = filter (λ e, tied_all f z e = true) l).
Proof.
  intros Hf Hswo Hq. exists (isort (chain_less f) l).
  split; [|split; [|split]].
  - by apply (Denotes_ToSlice Nil), Denotes_Sort.
  - apply isort_Permutation.
  - intros c i j x y Hc Hij Hx Hy Hfront.
    rewrite <-(chain_less_front f c x y Hfront Hc).
    apply (isort_sorted (chain_less f)) with (l := l) (i := i) (j := j); try done.
    + intros a b. by apply chain_less_asym.
    + intros a b d. by apply chain_less_negtrans.
  - intros z. apply isort_filter. intros a b Ha Hb.
    apply chain_less_tied. by apply (tied_all_class f z).
Qed.

End properties.

(** ** The properties on concrete sequences *)

Lemma StrictWeak_units_lt : StrictWeak units_lt.
Proof.
  split.
  - intros [|x] [|y]; simpl; try done.
    intros Hxy%bool_decide_eq_true. apply bool_decide_eq_false. lia.
  - intros [|x] [|y] [|z]; simpl; try done.
    intros Hxy%bool_decide_eq_false Hyz%bool_decide_eq_false.
    apply bool_decide_eq_false. lia.
Qed.

Lemma StrictWeak_tens_lt : StrictWeak tens_lt.
Proof.
  split.
  - intros [|x] [|y]; simpl; try done.
    intros Hxy%bool_decide_eq_true. apply bool_decide_eq_false. lia.
  - intros [|x] [|y] [|z]; simpl; try done.
    intros Hxy%bool_decide_eq_false Hyz%bool_decide_eq_false.
    apply bool_decide_eq_false. lia.
Qed.

Lemma Join_rows_witness :
  Returns
    (ToSlice (Join VNil (From VNil (VInt <$> [4; 5; 6; 7; 8; 9]%Z))
                (From VNil (VInt <$> [1; 2; 3; 4; 5; 6]%Z)) id id (λ o _, o)))
    (VInt <$> [4; 5; 6]%Z).
Proof.
  exact (proj1 (Join_rows VNil _ _ id id (λ o _, o) _ _
                  (Denotes_From VNil (VInt <$> [4; 5; 6; 7; 8; 9]%Z))
                  (Denotes_From VNil (VInt <$> [1; 2; 3; 4; 5; 6]%Z)))).
Defined.

Lemma Take_Skip_partition_witness :
  Returns (ToSlice (Take VNil (From VNil (VInt <$> [1; 2; 3; 4; 5]%Z)) 3))
    (VInt <$> [1; 2; 3]%Z) ∧
  Returns (ToSlice (Skip VNil (From VNil (VInt <$> [1; 2; 3; 4; 5]%Z)) 3))
    (VInt <$> [4; 5]%Z).
Proof.
  destruct (Take_Skip_partition VNil (From VNil (VInt <$> [1; 2; 3; 4; 5]%Z)) 3 _
              (Denotes_From VNil _) ltac:(lia)) as (Ht & Hs & _).
  exact (conj Ht Hs).
Defined.

(** C3 as stated fails for a negative count: both [Take] and [Skip]
    yield nothing, so their outputs do not add up to a non-empty input. *)
Lemma Take_Skip_negative_counterexample :
  ¬ (∀ (q : Query) (l : list value) (n : Z) (lt ls : list value),
       Denotes VNil q l →
       Returns (ToSlice (Take VNil q n)) lt →
       Returns (ToSlice (Skip VNil q n)) ls →
       lt ++ ls = l).
Proof.
  intros Hall.
  specialize (Hall (From VNil [VInt 1]) [VInt 1] (-1)%Z [] []
                   (Denotes_From VNil _)).
  enough ([] ++ [] = [VInt 1]) by done.
  apply Hall; apply (Denotes_ToSlice VNil).
  - apply (Denotes_Take_nonpositive VNil _ _ (from VNil [VInt 1]));
      [lia|apply Returns_const].
  - apply (Denotes_Skip_negative VNil _ _ (from VNil [VInt 1]));
      [lia|apply Returns_const].
Qed.

Lemma Where_filter_witness :
  Returns
    (ToSlice (Where (From VNil (VInt <$> [1; 2; 3; 4; 5]%Z)) [value_lt (VInt 3)]))
    (VInt <$> [4; 5]%Z).
Proof.
  exact (proj1 (Where_filter VNil (From VNil (VInt <$> [1; 2; 3; 4; 5]%Z))
                  [value_lt (VInt 3)] _ (Denotes_From VNil _))).
Defined.

Lemma Sort_stable_witness :
  ∃ out,
    Returns
      (ToSlice (Sort VNil (From VNil (VInt <$> [21; 13; 11; 25; 12; 31]%Z))
                  [tens_lt; units_lt])) out ∧
    out ≡ₚ VInt <$> [21; 13; 11; 25; 12; 31]%Z ∧
    (∀ c i j x y,
        last [tens_lt; units_lt] = Some c → i < j →
        out !! i = Some x → out !! j = Some y →
        tied_front [tens_lt; units_lt] x y = true → c y x = false) ∧
    (∀ z, filter (λ e, tied_all [tens_lt; units_lt] z e = true) out
          = filter (λ e, tied_all [tens_lt; units_lt] z e = true)
              (VInt <$> [21; 13; 11; 25; 12; 31]%Z)).
Proof.
  apply (Sort_stable VNil (From VNil (VInt <$> [21; 13; 11; 25; 12; 31]%Z))
           [tens_lt; units_lt]).
  - done.
  - constructor; [apply StrictWeak_tens_lt|].
    constructor; [apply StrictWeak_units_lt|constructor].
  - apply Denotes_From.
Defined.

(** C5 as stated fails for a comparator that is no strict weak order:
    with [a + 1 < b] the slice [3; 2; 1] is left as it is, no adjacent
    pair being out of order, although 1 is less than 3 under this only
    (hence last) comparator. *)
Lemma Sort_not_ordered_counterexample :
  ¬ (∀ (q : Query) (f : list (value → value → bool)) (l : list value),
       f ≠ [] → Denotes VNil q l →
       ∃ out,
         Returns (ToSlice (Sort VNil q f)) out ∧
         ∀ c i j x y,
           last f = Some c → i < j → out !! i = Some x → out !! j = Some y →
           tied_front f x y = true → c y x = false).
Proof.
  intros Hall.
  destruct (Hall (From VNil (VInt <$> [3; 2; 1]%Z)) [gap_lt]
              (VInt <$> [3; 2; 1]%Z) ltac:(done) (Denotes_From VNil _))
    as (out & Hout & Hord).
  assert (Returns (ToSlice (Sort VNil (From VNil (VInt <$> [3; 2; 1]%Z)) [gap_lt]))
            (VInt <$> [3; 2; 1]%Z)) as Hcode.
  { exact (Denotes_ToSlice VNil _ _
             (Denotes_Sort VNil (From VNil (VInt <$> [3; 2; 1]%Z)) [gap_lt]
                (VInt <$> [3; 2; 1]%Z) ltac:(done) (Denotes_From VNil _))). }
  rewrite (Returns_inj _ _ _ Hout Hcode) in Hord.
  by specialize (Hord gap_lt 0 2 (VInt 3) (VInt 1) eq_refl ltac:(lia)
                      eq_refl eq_refl eq_refl).
Qed.

Lemma Expand_concat_witness :
  Returns (ToSlice (Expand VNil (From VNil (VInt <$> [1; 2; 3]%Z)) (λ x, [x; x])))
    (VInt <$> [1; 1; 2; 2; 3; 3]%Z) ∧
  Returns (ToSlice (Expand VNil (From VNil (VInt <$> [1; 2; 3]%Z)) (λ x, [x])))
    (VInt <$> [1; 2; 3]%Z).
Proof.
  exact (Expand_concat VNil (From VNil (VInt <$> [1; 2; 3]%Z)) (λ x, [x; x]) _
           (Denotes_From VNil _)).
Defined.

Lemma Skip_Take_empty_witness :
  Returns (ToSlice (Skip VNil (From VNil (VInt <$> [1; 2; 3]%Z)) (-100))) [] ∧
  Returns (ToSlice (Take VNil (From VNil (VInt <$> [1; 2; 3]%Z)) (-2))) [].
Proof.
  apply (Skip_Take_empty VNil (From VNil (VInt <$> [1; 2; 3]%Z))
           (from VNil (VInt <$> [1; 2; 3]%Z)) (-100) (-2)).
  - apply Returns_const.
  - lia.
  - lia.
Defined.

Lemma absent_value_witness :
  Returns (At VNil (From VNil (VInt <$> [1; 2; 3; 4; 5]%Z)) 15) VNil ∧
  Returns (First (From VNil [])) VNil ∧
  Returns (Last VNil (From VNil [])) VNil ∧
  Returns (Reduce VNil (From VNil []) (λ v _, v)) VNil.
Proof.
  apply (absent_value VNil (From VNil (VInt <$> [1; 2; 3; 4; 5]%Z)) (From VNil [])
           (VInt <$> [1; 2; 3; 4; 5]%Z) 15 (λ v _, v)).
  - apply Denotes_From.
  - apply Denotes_From.
  - right. simpl. lia.
Defined.



(** ** The scenarios of the documentation, by evaluation *)

Example Where_scenario :
  ToSlice (Where (From VNil (VInt <$> [1; 2; 3; 4; 5]%Z)) [value_lt (VInt 3)]) 10
  = Ret (VInt <$> [4; 5]%Z).
Proof. vm_compute. reflexivity. Qed.

Example Expand_scenario :
  ToSlice (Expand VNil (From VNil (VInt <$> [1; 2; 3]%Z)) (λ x, [x; x])) 10
  = Ret (VInt <$> [1; 1; 2; 2; 3; 3]%Z).
Proof. vm_compute. reflexivity. Qed.

Example Join_scenario :
  ToSlice (Join VNil (From VNil (VInt <$> [4; 5; 6; 7; 8; 9]%Z))
             (From VNil (VInt <$> [1; 2; 3; 4; 5; 6]%Z)) id id (λ o _, o)) 10
  = Ret (VInt <$> [4; 5; 6]%Z).
Proof. vm_compute. reflexivity. Qed.

Example Sort_scenario :
  ToSlice (Sort VNil (From VNil (VInt <$> [4; 3; 7; 2; 5; 9; 1; 6; 8]%Z))
             [value_lt]) 12
  = Ret (VInt <$> [1; 2; 3; 4; 5; 6; 7; 8; 9]%Z).
Proof. vm_compute. reflexivity. Qed.

Example Sort_stable_scenario :
  ToSlice (Sort VNil (From VNil (VInt <$> [21; 13; 11; 25; 12; 31]%Z))
             [tens_lt]) 10
  = Ret (VInt <$> [13; 11; 12; 21; 25; 31]%Z).
Proof. vm_compute. reflexivity. Qed.

Example Sort_no_comparators_scenario :
  ToSlice (Sort VNil (From VNil (VInt <$> [4; 3]%Z)) []) 10 = Panic ∧
  ToSlice (Sort VNil (From VNil (VInt <$> [4]%Z)) []) 10 = Ret [VInt 4].
Proof. split; vm_compute; reflexivity. Qed.

Example At_scenario :
  At VNil (From VNil (VInt <$> [1; 2; 3; 4; 5]%Z)) 15 10 = Ret VNil ∧
  At VNil (From VNil (VInt <$> [1; 2; 3; 4; 5]%Z)) 3 10 = Ret (VInt 4) ∧
  At VNil (From VNil (VInt <$> [1; 2; 3; 4; 5]%Z)) (-100) 10 = Ret VNil.
Proof. repeat split; vm_compute; reflexivity. Qed.

Example Skip_Take_scenario :
  ToSlice (Skip VNil (From VNil (VInt <$> [1; 2; 3; 4; 5]%Z)) (-100)) 10 = Ret [] ∧
  ToSlice (Skip VNil (From VNil (VInt <$> [1; 2; 3; 4; 5]%Z)) 2) 10
    = Ret (VInt <$> [3; 4; 5]%Z) ∧
  ToSlice (Take VNil (From VNil (VInt <$> [1; 2; 3; 4; 5]%Z)) 42) 10
    = Ret (VInt <$> [1; 2; 3; 4; 5]%Z).
Proof. repeat split; vm_compute; reflexivity. Qed.

Example iterate_twice_scenario :
  Store.iterate_twice
    (Store.Sort VNil
       (Store.Join VNil (Store.From VNil 0)
          (Store.Expand VNil (Store.From VNil 1) (λ x, [x; x]))
          id id (λ o _, o))
       [value_lt])
    20 [Store.CSlice (VInt <$> [9; 5; 1; 4])%Z;
        Store.CSlice (VInt <$> [4; 5; 7])%Z] =
  Ret (VInt <$> [4; 4; 5; 5]%Z, VInt <$> [4; 4; 5; 5]%Z,
       [Store.CSlice (VInt <$> [9; 5; 1; 4])%Z;
        Store.CSlice (VInt <$> [4; 5; 7])%Z;
        Store.CInt 4; Store.CInt 3;
        Store.CExp {| e_outer := VNil; e_inner := [VInt 7; VInt 7];
                      e_i := 2; e_len := 2 |};
        Store.CJoin {| j_outer := VNil; j_inner := [VInt 4; VInt 4];
                       j_i := 2; j_len := 2 |};
        Store.CSlice (VInt <$> [4; 4; 5; 5])%Z; Store.CInt 4;
        Store.CInt 4; Store.CInt 3;
        Store.CExp {| e_outer := VNil; e_inner := [VInt 7; VInt 7];
                      e_i := 2; e_len := 2 |};
        Store.CJoin {| j_outer := VNil; j_inner := [VInt 4; VInt 4];
                       j_i := 2; j_len := 2 |};
        Store.CSlice (VInt <$> [4; 4; 5; 5])%Z; Store.CInt 4]).
Proof. vm_compute. reflexivity. Qed.

(** The property is one of the code, not of the store: a factory whose
    iterators shared the variable [i], here the cell at location 1, would
    yield the elements of the slice once only. *)
Example shared_counter_scenario :
  Store.iterate_twice
    {| Store.Iterate := λ _ σ, Ret (Store.from_next VNil 0 1, σ) |}
    5 [Store.CSlice (VInt <$> [1; 2])%Z; Store.CInt 0] =
  Ret (VInt <$> [1; 2]%Z, [],
       [Store.CSlice (VInt <$> [1; 2])%Z; Store.CInt 2]).
Proof. reflexivity. Qed.

(** ** Further properties: terminal operators *)

Section terminal_loops.
Context {T : Type} `{Countable T} (Nil : T).
Context {U : Type} (nxt : nat → U → result (T * bool * U)).

Lemma fold_left_andb (f : list (T → bool)) (e : T) (has : bool) :
  fold_left (λ has fk, has && fk e) f has = has && forallb (λ fk, fk e) f.
Proof.
  revert has. induction f as [|fk f IH]; intros has; simpl.
  - by rewrite andb_true_r.
  - by rewrite IH, andb_assoc.
Qed.

Lemma Any_loop_yields f s l :
  Yields Nil nxt s l →
  Returns (λ k, Any_loop nxt f k s)
    (existsb (λ e, forallb (λ fk, fk e) f) l).
Proof.
  revert s. induction l as [|e l IH]; intros s; simpl.
  - intros Hs. destruct (Exhausted_step _ _ _ Hs) as (s' & [k0 Hr] & _).
    fuel_step k0. by rewrite Hr by lia.
  - intros (s' & [k1 Hr] & Hl). destruct (IH s' Hl) as [k2 Hloop].
    fuel_step (k1 `max` k2). rewrite Hr by lia. simpl.
    rewrite fold_left_andb. simpl.
    destruct (forallb (λ fk, fk e) f); [done|]. apply Hloop. lia.
Qed.

Lemma Every_loop_yields f s l has :
  Yields Nil nxt s l →
  Returns (λ k, Every_loop nxt f k s has)
    (has && forallb (λ e, forallb (λ fk, fk e) f) l).
Proof.
  revert s has. induction l as [|e l IH]; intros s has; simpl.
  - intros Hs. destruct (Exhausted_step _ _ _ Hs) as (s' & [k0 Hr] & _).
    fuel_step k0. rewrite Hr by lia. simpl. by rewrite andb_true_r.
  - intros (s' & [k1 Hr] & Hl).
    destruct (IH s' (fold_left (λ has fk, has && fk e) f has) Hl) as [k2 Hloop].
    fuel_step (k1 `max` k2). rewrite Hr by lia. simpl.
    rewrite Hloop by lia. by rewrite fold_left_andb, andb_assoc.
Qed.

Lemma Contains_loop_yields e s l :
  Yields Nil nxt s l →
  Returns (λ k, Contains_loop nxt e k s) (bool_decide (e ∈ l)).
Proof.
  revert s. induction l as [|x l IH]; intros s; simpl.
  - intros Hs. destruct (Exhausted_step _ _ _ Hs) as (s' & [k0 Hr] & _).
    fuel_step k0. by rewrite Hr by lia.
  - intros (s' & [k1 Hr] & Hl). destruct (IH s' Hl) as [k2 Hloop].
    fuel_step (k1 `max` k2). rewrite Hr by lia. simpl.
    destruct (decide (x = e)) as [->|Hne].
    + by rewrite !bool_decide_eq_true_2 by (done || left).
    + rewrite (bool_decide_eq_false_2 (x = e)) by done.
      rewrite Hloop by lia. f_equal. apply bool_decide_ext.
      rewrite elem_of_cons. split; [by right|by intros [->|?]].
Qed.

Lemma Fold_loop_yields (f : T → T → T) s l v :
  Yields Nil nxt s l → Returns (λ k, Fold_loop nxt f k s v) (foldl f v l).
Proof.
  revert s v. induction l as [|e l IH]; intros s v; simpl.
  - intros Hs. destruct (Exhausted_step _ _ _ Hs) as (s' & [k0 Hr] & _).
    fuel_step k0. by rewrite Hr by lia.
  - intros (s' & [k1 Hr] & Hl). destruct (IH s' (f v e) Hl) as [k2 Hloop].
    fuel_step (k1 `max` k2). rewrite Hr by lia. simpl. apply Hloop. lia.
Qed.

Lemma ForEach_loop_yields {W : Type} (f : T → W → W) s l w :
  Yields Nil nxt s l →
  Returns (λ k, ForEach_loop nxt f k s w) (foldl (λ w e, f e w) w l).
Proof.
  revert s w. induction l as [|e l IH]; intros s w; simpl.
  - intros Hs. destruct (Exhausted_step _ _ _ Hs) as (s' & [k0 Hr] & _).
    fuel_step k0. by rewrite Hr by lia.
  - intros (s' & [k1 Hr] & Hl). destruct (IH s' (f e w) Hl) as [k2 Hloop].
    fuel_step (k1 `max` k2). rewrite Hr by lia. simpl. apply Hloop. lia.
Qed.

End terminal_loops.

Section terminal_properties.
Context {T : Type} `{Countable T} (Nil : T).

(** [From] and [ToSlice] are inverse: draining the query of a slice
    returns the elements of the slice, in order. *)
Theorem ToSlice_From (a : list T) : Returns (ToSlice (From Nil a)) a.
Proof. apply (Denotes_ToSlice Nil), Denotes_From. Qed.

Lemma Returns_Any (q : Query) (f : list (T → bool)) (l : list T) :
  Denotes Nil q l →
  Returns (Any q f) (existsb (λ e, forallb (λ fk, fk e) f) l).
Proof.
  intros (it & Hit & Hl). unfold Any.
  apply (Returns_bind _ (λ it k, Any_loop (next it) f k (st it)) it); [done|].
  by apply (Any_loop_yields Nil).
Qed.

Lemma Returns_Every (q : Query) (f : list (T → bool)) (l : list T) :
  Denotes Nil q l →
  Returns (Every q f) (forallb (λ e, forallb (λ fk, fk e) f) l).
Proof.
  intros (it & Hit & Hl). unfold Every.
  apply (Returns_bind _ (λ it k, Every_loop (next it) f k (st it) true) it);
    [done|].
  by apply (Every_loop_yields Nil _ f _ l true).
Qed.

Lemma Returns_Fold (q : Query) (v : T) (f : T → T → T) (l : list T) :
  Denotes Nil q l → Returns (Fold q v f) (foldl f v l).
Proof.
  intros (it & Hit & Hl). unfold Fold.
  apply (Returns_bind _ (λ it k, Fold_loop (next it) f k (st it) v) it); [done|].
  by apply (Fold_loop_yields Nil).
Qed.

(** [Any] returns true iff some element satisfies all the predicates:
    false on the empty sequence, and with no predicate true iff the
    sequence has an element. *)
Theorem Any_exists (q : Query) (f : list (T → bool)) (l : list T) :
  Denotes Nil q l →
  Returns (Any q f) (existsb (λ e, forallb (λ fk, fk e) f) l) ∧
  Returns (Any q []) (negb (bool_decide (l = []))).
Proof.
  intros Hq. split; [by apply Returns_Any|].
  pose proof (Returns_Any q [] l Hq) as Hall. by destruct l.
Qed.

(** [Every] returns true iff every element satisfies all the
    predicates: true on the empty sequence and with no predicate. *)
Theorem Every_forall (q : Query) (f : list (T → bool)) (l : list T) :
  Denotes Nil q l →
  Returns (Every q f) (forallb (λ e, forallb (λ fk, fk e) f) l).
Proof. apply Returns_Every. Qed.

(** No element satisfies a predicate iff every element satisfies its
    negation: [Any] of [p] is the negation of [Every] of [not p]. *)
Theorem Any_Every_dual (q : Query) (p : T → bool) (l : list T) (b : bool) :
  Denotes Nil q l →
  Returns (Any q [p]) b → Returns (Every q [λ e, negb (p e)]) (negb b).
Proof.
  intros Hq Hb.
  rewrite (Returns_inj _ _ _ Hb (Returns_Any q [p] l Hq)).
  pose proof (Returns_Every q [λ e, negb (p e)] l Hq) as Hevery.
  replace (forallb _ l) with (negb (existsb (λ e, forallb (λ fk, fk e) [p]) l))
    in Hevery; [done|].
  clear. induction l as [|e l IH]; simpl in *; [done|].
  rewrite <-IH, !andb_true_r. by destruct (p e).
Qed.

(** [Contains] returns true iff the value is an element of the
    sequence. *)
Theorem Contains_elem_of (q : Query) (e : T) (l : list T) :
  Denotes Nil q l → Returns (Contains q e) (bool_decide (e ∈ l)).
Proof.
  intros (it & Hit & Hl). unfold Contains.
  apply (Returns_bind _ (λ it k, Contains_loop (next it) e k (st it)) it);
    [done|].
  by apply (Contains_loop_yields Nil).
Qed.

(** [IsEmpty] returns true iff the sequence has no element. *)
Theorem IsEmpty_nil (q : Query) (l : list T) :
  Denotes Nil q l → Returns (IsEmpty q) (bool_decide (l = [])).
Proof.
  intros (it & Hit & Hl). unfold IsEmpty.
  apply (Returns_bind _ (λ it k, '(_, ok, _) ← next it k (st it); Ret (negb ok)) it);
    [done|].
  destruct l as [|e l]; simpl in Hl.
  - destruct (Exhausted_step _ _ _ Hl) as (s' & [k0 Hr] & _).
    exists k0. intros k Hk. by rewrite Hr.
  - destruct Hl as (s' & [k0 Hr] & _). exists k0. intros k Hk. by rewrite Hr.
Qed.

(** [Fold] combines the elements from left to right, starting from the
    initial value, which it returns on the empty sequence. *)
Theorem Fold_foldl (q : Query) (v : T) (f : T → T → T) (l : list T) :
  Denotes Nil q l → Returns (Fold q v f) (foldl f v l).
Proof. apply Returns_Fold. Qed.

(** [Reduce] is [Fold] over all but the first element, seeded with the
    first element, as its documentation says. *)
Theorem Reduce_as_Fold (q : Query) (f : T → T → T) (l : list T) :
  Denotes Nil q l →
  ∃ first r,
    Returns (First q) first ∧
    Returns (Fold (Skip Nil q 1) first f) r ∧
    Returns (Reduce Nil q f) r.
Proof.
  intros Hq. exists (default Nil (head l)).
  exists (match l with [] => Nil | v :: l' => foldl f v l' end).
  split; [by apply Returns_First|]. split; [|by apply Returns_Reduce].
  pose proof (Returns_Fold _ (default Nil (head l)) f _
                (Denotes_Skip Nil q 1 l ltac:(lia) Hq)) as Hfold.
  by destruct l.
Qed.

(** [ForEach] calls the function once for each element, in order. *)
Theorem ForEach_in_order {W : Type} (q : Query) (f : T → W → W) (w : W)
    (l : list T) :
  Denotes Nil q l → Returns (ForEach q f w) (foldl (λ w e, f e w) w l).
Proof.
  intros (it & Hit & Hl). unfold ForEach.
  apply (Returns_bind _ (λ it k, ForEach_loop (next it) f k (st it) w) it);
    [done|].
  by apply (ForEach_loop_yields Nil).
Qed.

End terminal_properties.

(** ** Further properties: MapTo and the composition of operators *)

Section composition.
Context {T : Type} `{Countable T} (Nil : T).

Lemma mapTo_ToSlice_loop_panics {U : Type}
    (nxt : nat → U → result (T * bool * U)) (f : T → T) s l1 l2 acc :
  Nil ∉ l1 → Yields Nil nxt s (l1 ++ Nil :: l2) →
  Panics (λ k, ToSlice_loop (mapTo_next Nil nxt f) k s acc).
Proof.
  revert s acc. induction l1 as [|e l1 IH]; intros s acc Hnil; simpl.
  - intros (s' & [k0 Hr] & _). exists (S k0). intros [|k] Hk; [lia|].
    assert (mapTo_next Nil nxt f k s = Panic) as Hm.
    { unfold mapTo_next. rewrite Hr by lia. simpl. by rewrite decide_True. }
    cbn [ToSlice_loop]. by rewrite Hm.
  - intros (s' & [k0 Hr] & Hl). apply not_elem_of_cons in Hnil as [Hne Hnil].
    destruct (IH s' (acc ++ [f e]) Hnil Hl) as [k1 Hloop].
    exists (S (k0 `max` k1)). intros [|k] Hk; [lia|].
    assert (mapTo_next Nil nxt f k s = Ret (f e, true, s')) as Hm.
    { unfold mapTo_next. rewrite Hr by lia. simpl. by rewrite decide_False. }
    cbn [ToSlice_loop]. rewrite Hm. simpl. apply Hloop. lia.
Qed.

(** [MapTo] applies the function to every element, in order, one output
    element for each input element, on a sequence without nil elements. *)
Theorem MapTo_map (q : Query) (f : T → T) (l : list T) :
  Denotes Nil q l → Nil ∉ l → Returns (ToSlice (MapTo Nil q f)) (map f l).
Proof. intros Hq Hnil. by apply (Denotes_ToSlice Nil), Denotes_MapTo. Qed.

(** [MapTo] asserts the type of each element before it calls the
    function: draining it panics when the sequence has a nil element. *)
Theorem MapTo_nil_panics (q : Query) (f : T → T) (l : list T) :
  Denotes Nil q l → Nil ∈ l → Panics (ToSlice (MapTo Nil q f)).
Proof.
  intros (it & Hit & Hl) (l1 & l2 & -> & Hnil)%list_elem_of_split_l.
  unfold ToSlice, MapTo, mapTo. simpl.
  apply (Panics_bind _
           (λ it' k, ToSlice_loop (next it') k (st it') [])
           {| St := St it; st := st it; next := mapTo_next Nil (next it) f |}).
  - apply (Returns_bind _ (λ up _, Ret _) it); [done|]. apply Returns_const.
  - simpl. by apply (mapTo_ToSlice_loop_panics _ f _ l1 l2).
Qed.

(** Two [MapTo] in a row map the composed function. *)
Theorem MapTo_MapTo (q : Query) (f g : T → T) (l : list T) :
  Denotes Nil q l → Nil ∉ l → Nil ∉ map f l →
  ∃ out,
    Returns (ToSlice (MapTo Nil (MapTo Nil q f) g)) out ∧
    Returns (ToSlice (MapTo Nil q (λ e, g (f e)))) out.
Proof.
  intros Hq Hl Hfl. exists (map g (map f l)). split.
  - apply (Denotes_ToSlice Nil), Denotes_MapTo; [done|].
    by apply Denotes_MapTo.
  - rewrite map_map. by apply (Denotes_ToSlice Nil), Denotes_MapTo.
Qed.

Lemma all_hold_app (p1 p2 : list (T → bool)) (e : T) :
  all_hold (p1 ++ p2) e = all_hold p1 e && all_hold p2 e.
Proof. by rewrite !all_hold_forallb, forallb_app. Qed.

(** Two [Where] in a row filter as one [Where] with the predicates of
    both. *)
Theorem Where_Where (q : Query) (p1 p2 : list (T → bool)) (l : list T) :
  Denotes Nil q l →
  ∃ out,
    Returns (ToSlice (Where (Where q p1) p2)) out ∧
    Returns (ToSlice (Where q (p1 ++ p2))) out.
Proof.
  intros Hq. exists (filter (λ e, all_hold (p1 ++ p2) e = true) l). split.
  - pose proof (Denotes_ToSlice Nil _ _
                  (Denotes_Where Nil _ p2 _ (Denotes_Where Nil q p1 l Hq))) as Hw.
    rewrite list_filter_filter in Hw.
    rewrite (list_filter_iff _ (λ e, all_hold p2 e = true ∧ all_hold p1 e = true));
      [done|].
    intros e. rewrite all_hold_app, andb_true_iff. tauto.
  - by apply (Denotes_ToSlice Nil), Denotes_Where.
Qed.

(** Skipping [n] and then [m] elements skips [n + m] elements, for
    counts that are not negative. *)
Theorem Skip_Skip (q : Query) (n m : Z) (l : list T) :
  Denotes Nil q l → (0 ≤ n)%Z → (0 ≤ m)%Z →
  ∃ out,
    Returns (ToSlice (Skip Nil (Skip Nil q n) m)) out ∧
    Returns (ToSlice (Skip Nil q (n + m))) out.
Proof.
  intros Hq Hn Hm. exists (drop (Z.to_nat m) (drop (Z.to_nat n) l)). split.
  - apply (Denotes_ToSlice Nil), Denotes_Skip; [done|].
    by apply Denotes_Skip.
  - rewrite drop_drop. replace (Z.to_nat n + Z.to_nat m) with (Z.to_nat (n + m))
      by lia.
    apply (Denotes_ToSlice Nil), Denotes_Skip; [lia|done].
Qed.

(** Taking [n] and then [m] elements takes the smaller number of
    elements, for all counts. *)
Theorem Take_Take (q : Query) (n m : Z) (l : list T) :
  Denotes Nil q l →
  ∃ out,
    Returns (ToSlice (Take Nil (Take Nil q n) m)) out ∧
    Returns (ToSlice (Take Nil q (n `min` m))) out.
Proof.
  intros Hq. exists (take (Z.to_nat m) (take (Z.to_nat n) l)). split.
  - by apply (Denotes_ToSlice Nil), Denotes_Take, Denotes_Take.
  - rewrite take_take.
    replace (Z.to_nat m `min` Z.to_nat n) with (Z.to_nat (n `min` m)) by lia.
    by apply (Denotes_ToSlice Nil), Denotes_Take.
Qed.

(** [q.At(i)] is [q.Skip(i).First()], for every index: the element at
    position [i] when there is one, nil otherwise. *)
Theorem At_First_Skip (q : Query) (i : Z) (l : list T) :
  Denotes Nil q l →
  ∃ v,
    Returns (At Nil q i) v ∧
    Returns (First (Skip Nil q i)) v ∧
    (∀ x, (0 ≤ i)%Z → l !! Z.to_nat i = Some x → v = x).
Proof.
  intros Hq. destruct (decide (i < 0)%Z) as [Hneg|Hpos].
  - exists Nil. split; [by apply Returns_At_negative|]. split; [|lia].
    destruct Hq as (it & Hit & _).
    apply (Returns_First Nil _ []). by eapply Denotes_Skip_negative.
  - exists (default Nil (l !! Z.to_nat i)).
    split; [apply Returns_At; [lia|done]|]. split.
    + pose proof (Returns_First Nil _ _
                    (Denotes_Skip Nil q i l ltac:(lia) Hq)) as Hf.
      by rewrite head_lookup, lookup_drop, Nat.add_0_r in Hf.
    + by intros x _ ->.
Qed.

(** [Last] returns the element at the last position. *)
Theorem Last_At (q : Query) (l : list T) :
  Denotes Nil q l →
  ∃ v,
    Returns (Last Nil q) v ∧
    Returns (At Nil q (Z.of_nat (length l) - 1)) v.
Proof.
  intros Hq. exists (default Nil (last l)). split; [by apply Returns_Last|].
  destruct l as [|e l].
  - by apply Returns_At_negative.
  - pose proof (Returns_At Nil q (Z.of_nat (length (e :: l)) - 1) _
                  ltac:(simpl; lia) Hq) as Hat.
    rewrite last_lookup.
    by replace (Z.to_nat (Z.of_nat (length (e :: l)) - 1))
      with (pred (length (e :: l))) in Hat by (simpl; lia).
Qed.

End composition.

(** ** Further properties: the sorter and Sort *)

Section sorter_properties.
Context {T : Type}.
Implicit Types (s : sorter (T:=T)).

(** [Less] is the lexicographic order of the comparator chain: the first
    comparator that orders the two elements one way or the other decides,
    and when all but the last tie the last one decides. *)
Theorem Less_lexicographic s (i j : nat) (x y : T) :
  less s ≠ [] → t s !! i = Some x → t s !! j = Some y →
  Less s i j = Ret (chain_less (less s) x y).
Proof. apply Less_chain. Qed.

(** For comparators that are strict weak orders [Less] is a strict
    order on the positions of the slice: asymmetric and transitive. *)
Theorem Less_strict_order s (i j k : nat) :
  less s ≠ [] → Forall StrictWeak (less s) →
  i < Len s → j < Len s → k < Len s →
  (Less s i j = Ret true → Less s j i = Ret false) ∧
  (Less s i j = Ret true → Less s j k = Ret true → Less s i k = Ret true).
Proof.
  intros Hf Hswo Hi Hj Hk.
  destruct (lookup_lt_is_Some_2 (t s) i Hi) as [x Hx].
  destruct (lookup_lt_is_Some_2 (t s) j Hj) as [y Hy].
  destruct (lookup_lt_is_Some_2 (t s) k Hk) as [z Hz].
  rewrite (Less_chain s i j x y), (Less_chain s j i y x),
    (Less_chain s j k y z), (Less_chain s i k x z) by done.
  split.
  - intros [= Hxy]. by rewrite (chain_less_asym _ _ _ Hswo Hxy).
  - intros [= Hxy] [= Hyz]. f_equal.
    destruct (chain_less (less s) x z) eqn:Hxz; [done|].
    pose proof (chain_less_asym _ _ _ Hswo Hyz) as Hzy.
    by rewrite (chain_less_negtrans _ _ _ _ Hswo Hxz Hzy) in Hxy.
Qed.

(** [Swap] exchanges the elements at two positions of the slice and
    leaves the other positions, the length and the comparators as they
    are; swapping the same positions again restores the sorter. *)
Theorem Swap_exchange s (i j : nat) :
  i < Len s → j < Len s →
  ∃ s',
    Swap s i j = Ret s' ∧
    Len s' = Len s ∧ less s' = less s ∧
    t s' !! i = t s !! j ∧ t s' !! j = t s !! i ∧
    (∀ k, k ≠ i → k ≠ j → t s' !! k = t s !! k) ∧
    Swap s' i j = Ret s.
Proof.
  unfold Len. intros Hi Hj.
  destruct (lookup_lt_is_Some_2 (t s) i Hi) as [x Hx].
  destruct (lookup_lt_is_Some_2 (t s) j Hj) as [y Hy].
  assert (∀ k, <[j:=x]> (<[i:=y]> (t s)) !! k
               = if decide (k = j) then Some x
                 else if decide (k = i) then Some y else t s !! k) as Hlook.
  { intros k. destruct (decide (k = j)) as [->|Hkj].
    - by rewrite list_lookup_insert_eq by (rewrite length_insert; lia).
    - rewrite list_lookup_insert_ne by done.
      destruct (decide (k = i)) as [->|Hki].
      + by rewrite list_lookup_insert_eq by lia.
      + by rewrite list_lookup_insert_ne by done. }
  exists {| t := <[j:=x]> (<[i:=y]> (t s)); less := less s |}.
  split; [|split; [|split; [|split; [|split; [|split]]]]]; simpl.
  - unfold Swap. by rewrite (index_lookup _ _ _ Hx), (index_lookup _ _ _ Hy).
  - by rewrite !length_insert.
  - done.
  - rewrite Hlook. destruct (decide (i = j)) as [->|]; [congruence|].
    by rewrite decide_True.
  - rewrite Hlook. by rewrite decide_True.
  - intros k Hki Hkj. rewrite Hlook. by rewrite !decide_False.
  - unfold Swap. simpl.
    assert (<[j:=x]> (<[i:=y]> (t s)) !! i = Some y) as Hi'.
    { rewrite Hlook. destruct (decide (i = j)) as [->|]; [congruence|].
      by rewrite decide_True. }
    assert (<[j:=x]> (<[i:=y]> (t s)) !! j = Some x) as Hj'.
    { rewrite Hlook. by rewrite decide_True. }
    rewrite (index_lookup _ _ _ Hi'), (index_lookup _ _ _ Hj'). simpl.
    destruct s as [ts ls]. simpl in *. f_equal. f_equal.
    apply list_eq. intros k.
    destruct (decide (k = j)) as [->|Hkj].
    { rewrite list_lookup_insert_eq by (rewrite !length_insert; lia). done. }
    rewrite list_lookup_insert_ne by done.
    destruct (decide (k = i)) as [->|Hki].
    { rewrite list_lookup_insert_eq by (rewrite !length_insert; lia). done. }
    rewrite list_lookup_insert_ne by done.
    rewrite Hlook. by rewrite !decide_False.
Qed.

End sorter_properties.

Section sort_properties.
Context {T : Type} `{Countable T} (Nil : T).

Lemma StronglySorted_of_lookup (R : T → T → Prop) (l : list T) :
  (∀ i j x y, i < j → l !! i = Some x → l !! j = Some y → R x y) →
  StronglySorted R l.
Proof.
  induction l as [|a l IH]; intros Hl; constructor.
  - apply IH. intros i j x y Hij Hx Hy. by apply (Hl (S i) (S j)); [lia|..].
  - apply Forall_forall. intros y [j Hy]%list_elem_of_lookup.
    by apply (Hl 0 (S j)); [lia|..].
Qed.

(** Insertion sort leaves a sorted list as it is. *)
Lemma foldl_insert_left_sorted_id (lt : T → T → bool) (rp l : list T) :
  StronglySorted (λ a b, lt b a = false) (reverse rp ++ l) →
  foldl (λ rp x, insert_left lt x rp) rp l = reverse l ++ rp.
Proof.
  revert rp. induction l as [|x l IH]; intros rp Hs; simpl; [done|].
  assert (insert_left lt x rp = x :: rp) as ->.
  { destruct rp as [|y rp]; [done|]. simpl.
    rewrite (StronglySorted_app_1_elem_of _ _ _ y x Hs); [done| |by left].
    rewrite elem_of_reverse. by left. }
  rewrite IH.
  - by rewrite reverse_cons, <-app_assoc.
  - by rewrite reverse_cons, <-app_assoc.
Qed.

Lemma isort_sorted_id (lt : T → T → bool) (l : list T) :
  StronglySorted (λ a b, lt b a = false) l → isort lt l = l.
Proof.
  intros Hl. unfold isort.
  rewrite foldl_insert_left_sorted_id by done.
  by rewrite app_nil_r, reverse_involutive.
Qed.

Lemma by_Sort_short (f : list (T → T → bool)) (l : list T) :
  length l ≤ 1 → by_Sort f l = Ret l.
Proof. destruct l as [|x [|y l]]; simpl; [done..|lia]. Qed.

(** In the output of [Sort], for comparators that are strict weak
    orders, no element is less, in the lexicographic order of the chain,
    than an element before it. *)
Theorem Sort_sorted (q : Query) (f : list (T → T → bool)) (l : list T) :
  f ≠ [] → Forall StrictWeak f → Denotes Nil q l →
  ∃ out,
    Returns (ToSlice (Sort Nil q f)) out ∧
    ∀ i j x y, i < j → out !! i = Some x → out !! j = Some y →
               chain_less f y x = false.
Proof.
  intros Hf Hswo Hq. exists (isort (chain_less f) l). split.
  - by apply (Denotes_ToSlice Nil), Denotes_Sort.
  - intros i j x y Hij Hx Hy.
    apply (isort_sorted (chain_less f)) with (l := l) (i := i) (j := j); try done.
    + intros a b. by apply chain_less_asym.
    + intros a b d. by apply chain_less_negtrans.
Qed.

(** [Sort] returns a sequence that is already in order unchanged,
    whatever the comparators. *)
Theorem Sort_sorted_input (q : Query) (f : list (T → T → bool)) (l : list T) :
  f ≠ [] → Denotes Nil q l →
  (∀ i j x y, i < j → l !! i = Some x → l !! j = Some y →
              chain_less f y x = false) →
  Returns (ToSlice (Sort Nil q f)) l.
Proof.
  intros Hf Hq Hl.
  pose proof (Denotes_ToSlice Nil _ _ (Denotes_Sort Nil q f l Hf Hq)) as Hs.
  rewrite isort_sorted_id in Hs; [done|].
  by apply StronglySorted_of_lookup.
Qed.

(** Sorting twice with the same comparators, strict weak orders, gives
    what sorting once gives. *)
Theorem Sort_idempotent (q : Query) (f : list (T → T → bool)) (l : list T) :
  f ≠ [] → Forall StrictWeak f → Denotes Nil q l →
  ∃ out,
    Returns (ToSlice (Sort Nil q f)) out ∧
    Returns (ToSlice (Sort Nil (Sort Nil q f) f)) out.
Proof.
  intros Hf Hswo Hq. exists (isort (chain_less f) l).
  pose proof (Denotes_Sort Nil q f l Hf Hq) as Hs.
  split; [by apply (Denotes_ToSlice Nil)|].
  pose proof (Denotes_ToSlice Nil _ _ (Denotes_Sort Nil _ f _ Hf Hs)) as Hss.
  rewrite isort_sorted_id in Hss; [done|].
  apply StronglySorted_of_lookup. intros i j x y Hij Hx Hy.
  apply (isort_sorted (chain_less f)) with (l := l) (i := i) (j := j); try done.
  - intros a b. by apply chain_less_asym.
  - intros a b d. by apply chain_less_negtrans.
Qed.

(** On a sequence of at most one element [Sort] makes no comparison: it
    returns the sequence for every comparator list, the empty one
    included. *)
Theorem Sort_short (q : Query) (f : list (T → T → bool)) (l : list T) :
  Denotes Nil q l → length l ≤ 1 → Returns (ToSlice (Sort Nil q f)) l.
Proof.
  intros Hq Hlen. apply (Denotes_ToSlice Nil).
  exists {| St := nat; st := 0; next := from_next Nil l |}.
  split; [|apply (from_next_yields Nil _ 0)].
  unfold Sort, sortBy. simpl.
  apply (Returns_bind _ (λ a _, a' ← by_Sort f a; Ret _) l);
    [by apply (Denotes_ToSlice Nil)|].
  rewrite by_Sort_short by done. apply Returns_const.
Qed.

End sort_properties.

(** ** Further properties: the lookup table and Join *)

Section join_properties.
Context {T : Type} `{Countable T} (Nil : T).

(** The table of [makeLut] binds each key of the inner sequence to the
    elements with that key, in their order, and no other key. *)
Theorem makeLut_groups (it : Iterator) (f : T → T) (li : list T) :
  Yields Nil (next it) (st it) li →
  ∃ m : gmap T (list T),
    Returns (makeLut it f) m ∧
    ∀ key, m !! key = match filter (λ e, f e = key) li with
                      | [] => None
                      | g => Some g
                      end.
Proof.
  intros Hli. exists (foldl (lut_add f) ∅ li). split.
  - by apply (makeLut_loop_yields Nil).
  - intros key. apply makeLut_lookup.
Qed.

Lemma filter_nil_forall (P : T → Prop) `{∀ x, Decision (P x)} (l : list T) :
  (∀ x, x ∈ l → ¬ P x) → filter P l = [].
Proof.
  induction l as [|a l IH]; intros Hl; [done|].
  rewrite filter_cons_False by (apply Hl; by left).
  apply IH. intros x Hx. apply Hl. by right.
Qed.

Lemma group_NoDup_length (f : T → T) (li : list T) (key : T) :
  NoDup (f <$> li) → length (group f li key) ≤ 1.
Proof.
  unfold group. induction li as [|e li IH]; [simpl; lia|].
  rewrite fmap_cons, NoDup_cons. intros [He Hli]. rewrite filter_cons.
  destruct (decide (f e = key)) as [<-|Hne]; [|by apply IH].
  rewrite filter_nil_forall; [simpl; lia|].
  intros x Hx Hfx. apply He. rewrite <-Hfx. by apply list_elem_of_fmap_2.
Qed.

(** When the keys of the inner elements are pairwise distinct, [Join]
    returns at most one row for each outer element. *)
Theorem Join_unique_keys (outer inner : Query) (outKeySel innKeySel : T → T)
    (resultSel : T → T → T) (lo li : list T) :
  Denotes Nil outer lo → Denotes Nil inner li →
  NoDup (innKeySel <$> li) →
  ∃ out,
    Returns (ToSlice (Join Nil outer inner outKeySel innKeySel resultSel)) out ∧
    length out ≤ length lo.
Proof.
  intros Hlo Hli Hkeys. exists (joined outKeySel innKeySel resultSel lo li).
  split; [by apply (Denotes_ToSlice Nil), Denotes_Join|].
  unfold joined. clear Hlo. induction lo as [|o lo IH]; simpl; [lia|].
  rewrite length_app, length_map.
  pose proof (group_NoDup_length innKeySel li (outKeySel o) Hkeys). lia.
Qed.

End join_properties.

(** ** The further properties on concrete sequences *)

Lemma MapTo_map_witness :
  Returns (ToSlice (MapTo VNil (From VNil (VInt <$> [1; 2; 3]%Z)) value_add10))
    (VInt <$> [11; 12; 13]%Z).
Proof.
  assert (VNil ∉ VInt <$> [1; 2; 3]%Z) as Hnil
    by (apply (bool_decide_unpack _); vm_compute; exact I).
  exact (MapTo_map VNil (From VNil (VInt <$> [1; 2; 3]%Z)) value_add10
           (VInt <$> [1; 2; 3]%Z) (Denotes_From VNil _) Hnil).
Defined.

Lemma MapTo_nil_panics_witness :
  Panics (ToSlice (MapTo VNil (From VNil [VInt 1; VNil; VInt 3]) (λ e, e))).
Proof.
  apply (MapTo_nil_panics VNil (From VNil [VInt 1; VNil; VInt 3]) (λ e, e)
           [VInt 1; VNil; VInt 3]).
  - apply Denotes_From.
  - right. left.
Defined.

Lemma MapTo_MapTo_witness :
  ∃ out,
    Returns (ToSlice (MapTo VNil (MapTo VNil (From VNil (VInt <$> [1; 2]%Z))
                                    (λ _, VInt 5)) (λ _, VInt 7))) out ∧
    Returns (ToSlice (MapTo VNil (From VNil (VInt <$> [1; 2]%Z))
                        (λ _, VInt 7))) out.
Proof.
  apply (MapTo_MapTo VNil (From VNil (VInt <$> [1; 2]%Z))
           (λ _, VInt 5) (λ _, VInt 7) (VInt <$> [1; 2]%Z)).
  - apply Denotes_From.
  - apply (bool_decide_unpack _). vm_compute. exact I.
  - apply (bool_decide_unpack _). vm_compute. exact I.
Defined.

Lemma Any_exists_witness :
  Returns (Any (From VNil (VInt <$> [1; 2; 3; 4; 5]%Z)) [value_lt (VInt 3)]) true ∧
  Returns (Any (From VNil (VInt <$> [1; 2; 3; 4; 5]%Z)) []) true.
Proof.
  exact (Any_exists VNil (From VNil (VInt <$> [1; 2; 3; 4; 5]%Z))
           [value_lt (VInt 3)] (VInt <$> [1; 2; 3; 4; 5]%Z)
           (Denotes_From VNil _)).
Defined.

Lemma Every_forall_witness :
  Returns (Every (From VNil (VInt <$> [1; 2; 3; 4; 5]%Z)) [value_lt (VInt 3)])
    false.
Proof.
  exact (Every_forall VNil (From VNil (VInt <$> [1; 2; 3; 4; 5]%Z))
           [value_lt (VInt 3)] (VInt <$> [1; 2; 3; 4; 5]%Z)
           (Denotes_From VNil _)).
Defined.

Lemma Any_Every_dual_witness :
  Returns (Every (From VNil (VInt <$> [1; 2]%Z)) [λ e, negb (value_lt (VInt 3) e)])
    true.
Proof.
  exact (Any_Every_dual VNil (From VNil (VInt <$> [1; 2]%Z)) (value_lt (VInt 3))
           (VInt <$> [1; 2]%Z) false (Denotes_From VNil _)
           (Returns_Any VNil _ [value_lt (VInt 3)] (VInt <$> [1; 2]%Z)
              (Denotes_From VNil _))).
Defined.

Lemma Contains_elem_of_witness :
  Returns (Contains (From VNil (VInt <$> [1; 2; 3]%Z)) (VInt 2)) true.
Proof.
  exact (Contains_elem_of VNil (From VNil (VInt <$> [1; 2; 3]%Z)) (VInt 2)
           (VInt <$> [1; 2; 3]%Z) (Denotes_From VNil _)).
Defined.

Lemma IsEmpty_nil_witness :
  Returns (IsEmpty (Where (From VNil (VInt <$> [1; 2]%Z)) [value_lt (VInt 3)]))
    true.
Proof.
  exact (IsEmpty_nil VNil
           (Where (From VNil (VInt <$> [1; 2]%Z)) [value_lt (VInt 3)]) []
           (Denotes_Where VNil _ [value_lt (VInt 3)] (VInt <$> [1; 2]%Z)
              (Denotes_From VNil _))).
Defined.

Lemma Fold_foldl_witness :
  Returns (Fold (From VNil (VInt <$> [1; 2; 3]%Z)) (VInt 0) value_sum) (VInt 6).
Proof.
  exact (Fold_foldl VNil (From VNil (VInt <$> [1; 2; 3]%Z)) (VInt 0) value_sum
           (VInt <$> [1; 2; 3]%Z) (Denotes_From VNil _)).
Defined.

Lemma Reduce_as_Fold_witness :
  ∃ first r,
    Returns (First (From VNil (VInt <$> [3; 1; 2]%Z))) first ∧
    Returns (Fold (Skip VNil (From VNil (VInt <$> [3; 1; 2]%Z)) 1) first
               (λ v _, v)) r ∧
    Returns (Reduce VNil (From VNil (VInt <$> [3; 1; 2]%Z)) (λ v _, v)) r.
Proof.
  apply (Reduce_as_Fold VNil (From VNil (VInt <$> [3; 1; 2]%Z)) (λ v _, v)
           (VInt <$> [3; 1; 2]%Z)).
  apply Denotes_From.
Defined.

Lemma ForEach_in_order_witness :
  Returns (ForEach (From VNil (VInt <$> [1; 2; 3]%Z)) (λ e w, e :: w) [])
    (VInt <$> [3; 2; 1]%Z).
Proof.
  exact (ForEach_in_order VNil (From VNil (VInt <$> [1; 2; 3]%Z))
           (λ e w, e :: w) [] (VInt <$> [1; 2; 3]%Z) (Denotes_From VNil _)).
Defined.

Lemma Where_Where_witness :
  ∃ out,
    Returns (ToSlice (Where (Where (From VNil (VInt <$> [1; 2; 3; 4; 5]%Z))
                               [value_lt (VInt 1)])
                        [λ e, value_lt e (VInt 5)])) out ∧
    Returns (ToSlice (Where (From VNil (VInt <$> [1; 2; 3; 4; 5]%Z))
                        ([value_lt (VInt 1)] ++ [λ e, value_lt e (VInt 5)]))) out.
Proof.
  apply (Where_Where VNil (From VNil (VInt <$> [1; 2; 3; 4; 5]%Z))
           [value_lt (VInt 1)] [λ e, value_lt e (VInt 5)]
           (VInt <$> [1; 2; 3; 4; 5]%Z)).
  apply Denotes_From.
Defined.

Lemma Skip_Skip_witness :
  ∃ out,
    Returns (ToSlice (Skip VNil (Skip VNil (From VNil (VInt <$> [1; 2; 3; 4]%Z)) 1) 2))
      out ∧
    Returns (ToSlice (Skip VNil (From VNil (VInt <$> [1; 2; 3; 4]%Z)) (1 + 2))) out.
Proof.
  apply (Skip_Skip VNil (From VNil (VInt <$> [1; 2; 3; 4]%Z)) 1 2
           (VInt <$> [1; 2; 3; 4]%Z)).
  - apply Denotes_From.
  - lia.
  - lia.
Defined.

Lemma Take_Take_witness :
  ∃ out,
    Returns (ToSlice (Take VNil (Take VNil (From VNil (VInt <$> [1; 2; 3; 4]%Z)) 3)
                        (-1))) out ∧
    Returns (ToSlice (Take VNil (From VNil (VInt <$> [1; 2; 3; 4]%Z))
                        (3 `min` (-1)))) out.
Proof.
  apply (Take_Take VNil (From VNil (VInt <$> [1; 2; 3; 4]%Z)) 3 (-1)
           (VInt <$> [1; 2; 3; 4]%Z)).
  apply Denotes_From.
Defined.

Lemma At_First_Skip_witness :
  ∃ v,
    Returns (At VNil (From VNil (VInt <$> [1; 2; 3; 4]%Z)) 2) v ∧
    Returns (First (Skip VNil (From VNil (VInt <$> [1; 2; 3; 4]%Z)) 2)) v ∧
    (∀ x, (0 ≤ 2)%Z → (VInt <$> [1; 2; 3; 4]%Z) !! Z.to_nat 2 = Some x → v = x).
Proof.
  apply (At_First_Skip VNil (From VNil (VInt <$> [1; 2; 3; 4]%Z)) 2
           (VInt <$> [1; 2; 3; 4]%Z)).
  apply Denotes_From.
Defined.

Lemma Last_At_witness :
  ∃ v,
    Returns (Last VNil (From VNil (VInt <$> [1; 2; 3; 4]%Z))) v ∧
    Returns (At VNil (From VNil (VInt <$> [1; 2; 3; 4]%Z))
               (Z.of_nat (length (VInt <$> [1; 2; 3; 4]%Z)) - 1)) v.
Proof.
  apply (Last_At VNil (From VNil (VInt <$> [1; 2; 3; 4]%Z))
           (VInt <$> [1; 2; 3; 4]%Z)).
  apply Denotes_From.
Defined.

Lemma Less_lexicographic_witness :
  Less {| t := VInt <$> [21; 13; 25]%Z; less := [tens_lt; units_lt] |} 0 2
  = Ret true.
Proof.
  assert ([tens_lt; units_lt] ≠ []) as Hf by done.
  exact (Less_lexicographic
           {| t := VInt <$> [21; 13; 25]%Z; less := [tens_lt; units_lt] |}
           0 2 (VInt 21) (VInt 25) Hf eq_refl eq_refl).
Defined.

Lemma Less_strict_order_witness :
  (Less {| t := VInt <$> [13; 21; 25]%Z; less := [tens_lt; units_lt] |} 0 1
   = Ret true →
   Less {| t := VInt <$> [13; 21; 25]%Z; less := [tens_lt; units_lt] |} 1 0
   = Ret false) ∧
  (Less {| t := VInt <$> [13; 21; 25]%Z; less := [tens_lt; units_lt] |} 0 1
   = Ret true →
   Less {| t := VInt <$> [13; 21; 25]%Z; less := [tens_lt; units_lt] |} 1 2
   = Ret true →
   Less {| t := VInt <$> [13; 21; 25]%Z; less := [tens_lt; units_lt] |} 0 2
   = Ret true).
Proof.
  apply (Less_strict_order
           {| t := VInt <$> [13; 21; 25]%Z; less := [tens_lt; units_lt] |} 0 1 2).
  - done.
  - constructor; [apply StrictWeak_tens_lt|].
    constructor; [apply StrictWeak_units_lt|constructor].
  - unfold Len. simpl. lia.
  - unfold Len. simpl. lia.
  - unfold Len. simpl. lia.
Defined.

Lemma Swap_exchange_witness :
  ∃ s',
    Swap {| t := VInt <$> [1; 2; 3]%Z; less := [value_lt] |} 0 2 = Ret s' ∧
    Len s' = Len {| t := VInt <$> [1; 2; 3]%Z; less := [value_lt] |} ∧
    less s' = [value_lt] ∧
    t s' !! 0 = (VInt <$> [1; 2; 3]%Z) !! 2 ∧
    t s' !! 2 = (VInt <$> [1; 2; 3]%Z) !! 0 ∧
    (∀ k, k ≠ 0 → k ≠ 2 → t s' !! k = (VInt <$> [1; 2; 3]%Z) !! k) ∧
    Swap s' 0 2 = Ret {| t := VInt <$> [1; 2; 3]%Z; less := [value_lt] |}.
Proof.
  assert (0 < Len {| t := VInt <$> [1; 2; 3]%Z; less := [value_lt] |}) as H0
    by (unfold Len; simpl; lia).
  assert (2 < Len {| t := VInt <$> [1; 2; 3]%Z; less := [value_lt] |}) as H2
    by (unfold Len; simpl; lia).
  exact (Swap_exchange {| t := VInt <$> [1; 2; 3]%Z; less := [value_lt] |} 0 2
           H0 H2).
Defined.

Lemma StrictWeak_value_lt : StrictWeak value_lt.
Proof.
  split.
  - intros [|x] [|y]; simpl; try done.
    intros Hxy%bool_decide_eq_true. apply bool_decide_eq_false. lia.
  - intros [|x] [|y] [|z]; simpl; try done.
    intros Hxy%bool_decide_eq_false Hyz%bool_decide_eq_false.
    apply bool_decide_eq_false. lia.
Qed.

Lemma Sort_sorted_witness :
  ∃ out,
    Returns (ToSlice (Sort VNil (From VNil (VInt <$> [3; 1; 2]%Z)) [value_lt])) out ∧
    ∀ i j x y, i < j → out !! i = Some x → out !! j = Some y →
               chain_less [value_lt] y x = false.
Proof.
  apply (Sort_sorted VNil (From VNil (VInt <$> [3; 1; 2]%Z)) [value_lt]
           (VInt <$> [3; 1; 2]%Z)).
  - done.
  - constructor; [apply StrictWeak_value_lt|constructor].
  - apply Denotes_From.
Defined.

Lemma Sort_sorted_input_witness :
  Returns (ToSlice (Sort VNil (From VNil (VInt <$> [1; 2; 2]%Z)) [value_lt]))
    (VInt <$> [1; 2; 2]%Z).
Proof.
  apply (Sort_sorted_input VNil (From VNil (VInt <$> [1; 2; 2]%Z)) [value_lt]
           (VInt <$> [1; 2; 2]%Z)).
  - done.
  - apply Denotes_From.
  - intros i j x y Hij Hx Hy.
    apply (StronglySorted_lookup (λ a b, chain_less [value_lt] b a = false)
             (VInt <$> [1; 2; 2]%Z) i j); [|done..].
    repeat constructor.
Defined.

Lemma Sort_idempotent_witness :
  ∃ out,
    Returns (ToSlice (Sort VNil (From VNil (VInt <$> [3; 1; 2]%Z)) [value_lt])) out ∧
    Returns (ToSlice (Sort VNil (Sort VNil (From VNil (VInt <$> [3; 1; 2]%Z))
                                   [value_lt]) [value_lt])) out.
Proof.
  apply (Sort_idempotent VNil (From VNil (VInt <$> [3; 1; 2]%Z)) [value_lt]
           (VInt <$> [3; 1; 2]%Z)).
  - done.
  - constructor; [apply StrictWeak_value_lt|constructor].
  - apply Denotes_From.
Defined.

Lemma Sort_short_witness :
  Returns (ToSlice (Sort VNil (From VNil [VInt 4]) [])) [VInt 4].
Proof.
  exact (Sort_short VNil (From VNil [VInt 4]) [] [VInt 4]
           (Denotes_From VNil _) (le_n 1)).
Defined.

Lemma makeLut_groups_witness :
  ∃ m : gmap value (list value),
    Returns (makeLut (from VNil (VInt <$> [11; 21; 12]%Z)) units_key) m ∧
    ∀ key, m !! key
           = match filter (λ e, units_key e = key) (VInt <$> [11; 21; 12]%Z) with
             | [] => None
             | g => Some g
             end.
Proof.
  apply (makeLut_groups VNil (from VNil (VInt <$> [11; 21; 12]%Z)) units_key
           (VInt <$> [11; 21; 12]%Z)).
  apply (from_next_yields VNil _ 0).
Defined.

Lemma Join_unique_keys_witness :
  ∃ out,
    Returns (ToSlice (Join VNil (From VNil (VInt <$> [4; 5; 6; 7]%Z))
                        (From VNil (VInt <$> [5; 6; 9]%Z)) id id (λ o _, o))) out ∧
    length out ≤ length (VInt <$> [4; 5; 6; 7]%Z).
Proof.
  apply (Join_unique_keys VNil (From VNil (VInt <$> [4; 5; 6; 7]%Z))
           (From VNil (VInt <$> [5; 6; 9]%Z)) id id (λ o _, o)
           (VInt <$> [4; 5; 6; 7]%Z) (VInt <$> [5; 6; 9]%Z)).
  - apply Denotes_From.
  - apply Denotes_From.
  - apply (bool_decide_unpack _). vm_compute. exact I.
Defined.
